(** * Focus Header plugin: the heading tree, the locator, sibling navigation
      and the unfold set of [src/main.ts], embedded and verified.

    The three commands of the plugin ([focusOnCurrentHeader],
    [focusOnNextSibling], [focusOnPreviousSibling]) share, verbatim, the loop
    that builds the header list and the code that computes the set of lines to
    unfold.  Those shared pieces are embedded once and used by the three
    command models. *)

From Stdlib Require Import NArith String Ascii.
From stdpp Require Import gmap list sorting.

Local Open Scope nat_scope.
Set Warnings "-clear-no-such-hyp".

(** ** JavaScript strings

    A JavaScript string is a sequence of UTF-16 code units; the regular
    expression of the parser has no [u] flag and so works on code units. *)

Module JS.

Abbreviation jsstring := (list N).

Definition LF : N := 10%N.
Definition HASH : N := 35%N.

(** The class [\s] of ECMAScript: WhiteSpace and LineTerminator code points. *)
Definition isWhiteSpace (c : N) : bool :=
  ((c =? 9) || (c =? 10) || (c =? 11) || (c =? 12) || (c =? 13) || (c =? 32)
   || (c =? 160) || (c =? 5760) || ((8192 <=? c) && (c <=? 8202))
   || (c =? 8232) || (c =? 8233) || (c =? 8239) || (c =? 8287)
   || (c =? 12288) || (c =? 65279))%N.

(** [s.split("\n")]: always at least one piece. *)
Fixpoint split (s : jsstring) : list jsstring :=
  match s with
  | [] => [[]]
  | c :: s' =>
      if (c =? LF)%N then [] :: split s'
      else match split s' with
           | piece :: pieces => (c :: piece) :: pieces
           | [] => [[c]]
           end
  end.

(** Code units of an ASCII literal, and a text made of lines joined by
    ["\n"]; used to write concrete documents. *)
Fixpoint ofString (s : string) : jsstring :=
  match s with
  | EmptyString => []
  | String a s' => N_of_ascii a :: ofString s'
  end.

Fixpoint joinLines (ls : list string) : jsstring :=
  match ls with
  | [] => []
  | [l] => ofString l
  | l :: ls' => ofString l ++ LF :: joinLines ls'
  end.

(** *** The pattern [/^(#+)\s/]

    [#+] is greedy: the matcher first takes the whole run of [#] at the start
    of the string and asks for a [\s] after it; on failure it gives characters
    back one at a time, down to a group of length one.  The result is
    [match[1].length]. *)
Fixpoint hashRun (s : jsstring) : nat :=
  match s with
  | c :: s' => if (c =? HASH)%N then S (hashRun s') else 0
  | [] => 0
  end.

Fixpoint matchHeaderUpTo (s : jsstring) (k : nat) : option nat :=
  match k with
  | 0 => None
  | S k' =>
      match s !! k with
      | Some c => if isWhiteSpace c then Some k else matchHeaderUpTo s k'
      | None => matchHeaderUpTo s k'
      end
  end.

Definition matchHeader (s : jsstring) : option nat :=
  matchHeaderUpTo s (hashRun s).

End JS.

Import JS.

(** ** The data model *)

(** [interface HeaderNode { line; level; parent? }].  A node is built once,
    its [parent] is assigned before the node is pushed, and it is never
    changed afterwards, so a node is modelled by its value.  The parser
    creates one node per line and [line] therefore identifies the object:
    the [===] of the source on nodes is equality of values here (see
    [buildHeaders_lookup_inj] and [buildHeaders_parent_closed]).  Lines are
    indices of the array of lines, hence [nat]. *)
#[warnings="-register-all"]
Inductive HeaderNode : Type :=
  mkHeaderNode { line : nat; level : nat; parent : option HeaderNode }.

Fixpoint HeaderNode_eq_dec (a b : HeaderNode) : {a = b} + {a ≠ b}.
Proof.
  destruct a as [l1 v1 p1], b as [l2 v2 p2].
  destruct (Nat.eq_dec l1 l2) as [El | Nl]; [| right; congruence].
  destruct (Nat.eq_dec v1 v2) as [Ev | Nv]; [| right; congruence].
  destruct p1 as [q1 |], p2 as [q2 |].
  - destruct (HeaderNode_eq_dec q1 q2) as [Eq | Nq].
    + left; congruence.
    + right; congruence.
  - right; congruence.
  - right; congruence.
  - left; congruence.
Defined.

#[export] Instance HeaderNode_eqdec : EqDecision HeaderNode := HeaderNode_eq_dec.

(** Number of parent links above a node. *)
Fixpoint depth (n : HeaderNode) : nat :=
  match parent n with
  | Some p => S (depth p)
  | None => 0
  end.

(** ** Step 1: the header tree *)

(** [for (let l = level - 1; l >= 1; l--) if (lastByLevel[l]) { ...; break }],
    started at [l]. *)
Fixpoint findParent (lastByLevel : gmap nat HeaderNode) (l : nat)
  : option HeaderNode :=
  match l with
  | 0 => None
  | S l' =>
      match lastByLevel !! l with
      | Some p => Some p
      | None => findParent lastByLevel l'
      end
  end.

Record ParseState : Type := mkParseState {
  headers : list HeaderNode;
  lastByLevel : gmap nat HeaderNode
}.

Definition parseInit : ParseState := mkParseState [] ∅.

(** The body of the loop for line [i] holding [ln]. *)
Definition parseLine (i : nat) (ln : jsstring) (st : ParseState) : ParseState :=
  match matchHeader ln with
  | Some lvl =>
      let node := mkHeaderNode i lvl (findParent (lastByLevel st) (lvl - 1)) in
      mkParseState (headers st ++ [node]) (<[lvl := node]> (lastByLevel st))
  | None => st
  end.

Fixpoint parseLoop (i : nat) (lines : list jsstring) (st : ParseState)
  : ParseState :=
  match lines with
  | [] => st
  | ln :: rest => parseLoop (S i) rest (parseLine i ln st)
  end.

Definition parseLines (lines : list jsstring) : ParseState :=
  parseLoop 0 lines parseInit.

Definition buildHeaders (text : jsstring) : list HeaderNode :=
  headers (parseLines (split text)).

(** ** Step 2: the current header

    [for (let i = headers.length - 1; i >= 0; i--)
       if (headers[i].line <= cursorLine) { ...; break; }]
    with [n] positions left to visit, the next one being [n - 1].
    [focusOnCurrentHeader] keeps the node, the two sibling commands keep the
    index ([-1] is [None]). *)
Fixpoint findCurrentHeaderFrom (headers : list HeaderNode) (cursorLine n : nat)
  : option HeaderNode :=
  match n with
  | 0 => None
  | S i =>
      match headers !! i with
      | Some h =>
          if decide (line h ≤ cursorLine) then Some h
          else findCurrentHeaderFrom headers cursorLine i
      | None => None (* not reached: i < headers.length *)
      end
  end.

Definition findCurrentHeader (headers : list HeaderNode) (cursorLine : nat)
  : option HeaderNode :=
  findCurrentHeaderFrom headers cursorLine (length headers).

Fixpoint findCurrentIndexFrom (headers : list HeaderNode) (cursorLine n : nat)
  : option nat :=
  match n with
  | 0 => None
  | S i =>
      match headers !! i with
      | Some h =>
          if decide (line h ≤ cursorLine) then Some i
          else findCurrentIndexFrom headers cursorLine i
      | None => None (* not reached: i < headers.length *)
      end
  end.

Definition findCurrentIndex (headers : list HeaderNode) (cursorLine : nat)
  : option nat :=
  findCurrentIndexFrom headers cursorLine (length headers).

(** ** Sibling navigation *)

(** The test of the scan: [headers[i].level === level &&
    headers[i].parent === currentHeader.parent]. *)
Definition isSibling (lvl : nat) (par : option HeaderNode) (h : HeaderNode)
  : Prop :=
  level h = lvl ∧ parent h = par.

#[export] Instance isSibling_dec lvl par h : Decision (isSibling lvl par h).
Proof. unfold isSibling. apply _. Defined.

(** [for (let i = currentHeaderIndex + 1; i < headers.length; i++)], on the
    nodes that remain to be visited. *)
Fixpoint scanNext (lvl : nat) (par : option HeaderNode) (rest : list HeaderNode)
  : option HeaderNode :=
  match rest with
  | [] => None
  | h :: rest' =>
      if decide (isSibling lvl par h) then Some h
      else if decide (level h ≤ lvl) then None
      else scanNext lvl par rest'
  end.

Definition findNextSibling (headers : list HeaderNode) (currentHeaderIndex : nat)
  : option HeaderNode :=
  match headers !! currentHeaderIndex with
  | Some currentHeader =>
      scanNext (level currentHeader) (parent currentHeader)
        (drop (S currentHeaderIndex) headers)
  | None => None
  end.

(** [for (let i = currentHeaderIndex - 1; i >= 0; i--)], with [n] positions
    left, the next one being [n - 1]. *)
Fixpoint scanPrev (headers : list HeaderNode) (lvl : nat)
    (par : option HeaderNode) (n : nat) : option HeaderNode :=
  match n with
  | 0 => None
  | S i =>
      match headers !! i with
      | Some h =>
          if decide (isSibling lvl par h) then Some h
          else if decide (level h ≤ lvl) then None
          else scanPrev headers lvl par i
      | None => None (* not reached: i < headers.length *)
      end
  end.

Definition findPreviousSibling (headers : list HeaderNode)
    (currentHeaderIndex : nat) : option HeaderNode :=
  match headers !! currentHeaderIndex with
  | Some currentHeader =>
      scanPrev headers (level currentHeader) (parent currentHeader)
        currentHeaderIndex
  | None => None
  end.

(** ** Step 3: the lines to unfold *)

(** [let ancestor = focus; while (ancestor) { unfoldLines.add(ancestor.line);
    ancestor = ancestor.parent; }] *)
Fixpoint collectAncestors (ancestor : HeaderNode) (unfoldLines : gset nat)
  : gset nat :=
  let unfoldLines := {[line ancestor]} ∪ unfoldLines in
  match parent ancestor with
  | Some p => collectAncestors p unfoldLines
  | None => unfoldLines
  end.

(** The recursive closure [collectDescendants].  The recursion of the source
    is not structural, so the model counts nested calls down from [fuel] and
    answers [None] when the count is used up; [collectDescendants_enough]
    shows that this never happens on the calls the commands make. *)
Fixpoint collectDescendants (fuel : nat) (headers : list HeaderNode)
    (node : HeaderNode) (unfoldLines : gset nat) : option (gset nat) :=
  match fuel with
  | 0 => None
  | S fuel' =>
      foldl
        (λ (acc : option (gset nat)) (child : HeaderNode),
           match acc with
           | Some lines =>
               if decide (parent child = Some node)
               then collectDescendants fuel' headers child lines
               else Some lines
           | None => None
           end)
        (Some ({[line node]} ∪ unfoldLines)) headers
  end.

Definition computeUnfoldLines (headers : list HeaderNode) (focus : HeaderNode)
  : option (gset nat) :=
  collectDescendants (S (length headers)) headers focus
    (collectAncestors focus ∅).

(** ** Step 4 and the commands *)

Record Range : Type := mkRange { from : nat; to : nat }.

Inductive StateEffect : Type :=
  | foldEffect (range : Range)
  | unfoldEffect (range : Range).

(** What a command asks of the editor, in order.  [ScrollTo pos] stands for
    [cm.scrollDOM.scrollTop = cm.coordsAtPos(pos)?.top ?? 0]. *)
Inductive HostCall : Type :=
  | Dispatch (effects : list StateEffect)
  | ScrollTo (pos : nat)
  | SetCursor (ln ch : nat).

Record Editor (View : Type) : Type := mkEditor {
  value : jsstring;
  cursorLine : nat;
  cursorCh : nat;
  cm : View
}.
Arguments mkEditor {View}.
Arguments value {View}.
Arguments cursorLine {View}.
Arguments cursorCh {View}.
Arguments cm {View}.

Section Host.
(** The editor view and what CodeMirror computes from it. *)
Context {View Px : Type}.
Variable zeroPx : Px.
Variable docLineFrom : View → nat → nat.          (* state.doc.line(n).from *)
Variable foldable : View → nat → option Range.    (* foldable(state, from) *)
Variable coordsAtPosTop : View → nat → option Px. (* cm.coordsAtPos(pos)?.top *)
Variable dispatch : View → list StateEffect → View.
Variable setScrollTop : View → Px → View.

Definition foldEffects (view : View) (headers : list HeaderNode)
    (unfoldLines : gset nat) : list StateEffect :=
  omap
    (λ header,
       match foldable view (docLineFrom view (line header + 1)) with
       | None => None (* continue *)
       | Some range =>
           Some (if decide (line header ∈ unfoldLines)
                 then unfoldEffect range else foldEffect range)
       end)
    headers.

(** Each command answers the list of editor calls it makes; the outer
    [None] is left for a [collectDescendants] that runs out of fuel. *)
Definition focusOnCurrentHeader (editor : Editor View)
  : option (list HostCall) :=
  let headers := buildHeaders (value editor) in
  match findCurrentHeader headers (cursorLine editor) with
  | None => Some [] (* return *)
  | Some currentHeader =>
      match computeUnfoldLines headers currentHeader with
      | None => None
      | Some unfoldLines =>
          Some [ Dispatch (foldEffects (cm editor) headers unfoldLines);
                 ScrollTo (docLineFrom (cm editor) (line currentHeader + 1)) ]
      end
  end.

Definition focusOnSibling
    (findSibling : list HeaderNode → nat → option HeaderNode)
    (editor : Editor View) : option (list HostCall) :=
  let headers := buildHeaders (value editor) in
  match findCurrentIndex headers (cursorLine editor) with
  | None => Some [] (* return *)
  | Some currentHeaderIndex =>
      match findSibling headers currentHeaderIndex with
      | None => Some [] (* return *)
      | Some sibling =>
          match computeUnfoldLines headers sibling with
          | None => None
          | Some unfoldLines =>
              Some [ Dispatch (foldEffects (cm editor) headers unfoldLines);
                     ScrollTo (docLineFrom (cm editor) (line sibling + 1));
                     SetCursor (line sibling) 0 ]
          end
      end
  end.

(** The two sibling commands are the same text but for the scan. *)
Definition focusOnNextSibling : Editor View → option (list HostCall) :=
  focusOnSibling findNextSibling.

Definition focusOnPreviousSibling : Editor View → option (list HostCall) :=
  focusOnSibling findPreviousSibling.

(** The editor after one call.  A transaction that carries only effects
    leaves the text and the selection alone, and so does scrolling; of the
    view only the folds and the scroll position are followed here. *)
Definition perform (editor : Editor View) (c : HostCall) : Editor View :=
  match c with
  | Dispatch effects =>
      mkEditor (value editor) (cursorLine editor) (cursorCh editor)
        (dispatch (cm editor) effects)
  | ScrollTo pos =>
      mkEditor (value editor) (cursorLine editor) (cursorCh editor)
        (setScrollTop (cm editor)
           (default zeroPx (coordsAtPosTop (cm editor) pos)))
  | SetCursor ln ch => mkEditor (value editor) ln ch (cm editor)
  end.

Definition run (calls : list HostCall) (editor : Editor View) : Editor View :=
  foldl perform editor calls.

(** The unfold set that [focusOnCurrentHeader] computes on [editor], if it
    gets as far as computing one. *)
Definition currentUnfoldLines (editor : Editor View) : option (gset nat) :=
  let headers := buildHeaders (value editor) in
  match findCurrentHeader headers (cursorLine editor) with
  | None => None
  | Some currentHeader => computeUnfoldLines headers currentHeader
  end.

(** [onload]: the three commands the plugin registers. *)
Inductive Command : Type :=
  | FocusOnCurrentHeader   (* "focus-on-current-header-smart" *)
  | FocusOnNextHeader      (* "focus-next-sibling-header" *)
  | FocusOnPreviousHeader. (* "focus-previous-sibling-header" *)

Definition editorCallback (c : Command) : Editor View → option (list HostCall) :=
  match c with
  | FocusOnCurrentHeader => focusOnCurrentHeader
  | FocusOnNextHeader => focusOnNextSibling
  | FocusOnPreviousHeader => focusOnPreviousSibling
  end.

End Host.

(** The visible set of a sibling command on a text and a cursor line. *)
Definition siblingUnfoldLines
    (findSibling : list HeaderNode → nat → option HeaderNode)
    (text : jsstring) (cursorLine : nat) : option (gset nat) :=
  let headers := buildHeaders text in
  match findCurrentIndex headers cursorLine with
  | None => None
  | Some currentHeaderIndex =>
      match findSibling headers currentHeaderIndex with
      | None => None
      | Some sibling => computeUnfoldLines headers sibling
      end
  end.

(** ** The scenarios of the documentation *)

Definition scenario : jsstring :=
  joinLines ["# A"; "## B"; "## C"; "### D"; "## E"]%string.

(** The members of a computed set among [candidates], in order. *)
Definition visible (o : option (gset nat)) (candidates : list nat) : list nat :=
  match o with
  | Some s => filter (λ i, i ∈ s) candidates
  | None => []
  end.

(** A document where a level is skipped after a shallower heading. *)
Definition staleDoc : jsstring := joinLines ["## B"; "# A"; "### C"]%string.

(** ** Notions used to state the properties *)

(** The heading pattern in words: one or more [#], then a white-space
    character, from the start of the line. *)
Definition headingPattern (ln : jsstring) : Prop :=
  ∃ k c rest, 0 < k ∧ ln = replicate k HASH ++ c :: rest ∧ isWhiteSpace c = true.

(** [ln] starts with exactly [k] marker characters. *)
Definition markerCount (ln : jsstring) (k : nat) : Prop :=
  ∃ rest, ln = replicate k HASH ++ rest ∧ head rest ≠ Some HASH.

(** [a] is reached from [n] by one or more parent links. *)
Fixpoint ancestorOf (a n : HeaderNode) : Prop :=
  match parent n with
  | Some p => a = p ∨ ancestorOf a p
  | None => False
  end.

(** The most recent node of [hs] at level [l]. *)
Definition lastWith (hs : list HeaderNode) (l : nat) : option HeaderNode :=
  last (filter (λ h, level h = l) hs).

(** What the parent search finds when it is run after the nodes [hs]. *)
Fixpoint parentAfter (hs : list HeaderNode) (l : nat) : option HeaderNode :=
  match l with
  | 0 => None
  | S l' =>
      match lastWith hs l with
      | Some p => Some p
      | None => parentAfter hs l'
      end
  end.

(** The focus node of a command run on [text] with the cursor on
    [cursorLine]. *)
Inductive FocusNode (text : jsstring) (cursorLine : nat) : HeaderNode → Prop :=
  | focus_current h :
      findCurrentHeader (buildHeaders text) cursorLine = Some h →
      FocusNode text cursorLine h
  | focus_next i s :
      findCurrentIndex (buildHeaders text) cursorLine = Some i →
      findNextSibling (buildHeaders text) i = Some s →
      FocusNode text cursorLine s
  | focus_previous i s :
      findCurrentIndex (buildHeaders text) cursorLine = Some i →
      findPreviousSibling (buildHeaders text) i = Some s →
      FocusNode text cursorLine s.

(** What holds of the loop state before line [i] is read. *)
Record ParseInv (i : nat) (st : ParseState) : Prop := {
  inv_lines : ∀ n, n ∈ headers st → line n < i;
  inv_sorted : ∀ j k a b,
    headers st !! j = Some a → headers st !! k = Some b → j < k →
    line a < line b;
  inv_last : ∀ l, lastByLevel st !! l = lastWith (headers st) l;
  inv_parent : ∀ k n,
    headers st !! k = Some n →
    0 < level n ∧ parent n = parentAfter (take k (headers st)) (level n - 1)
}.

(** The two facts about the header list that the planner and the navigation
    rest on: lines grow along the list, and a parent is an earlier node of
    the list, of smaller level. *)
Record TreeShaped (hs : list HeaderNode) : Prop := {
  ts_sorted : ∀ j k a b,
    hs !! j = Some a → hs !! k = Some b → j < k → line a < line b;
  ts_parent : ∀ k n p,
    hs !! k = Some n → parent n = Some p →
    ∃ j, j < k ∧ hs !! j = Some p ∧ level p < level n
}.

(** Induction along the parent links. *)
Fixpoint HeaderNode_parent_ind (P : HeaderNode → Prop)
    (Hroot : ∀ l v, P (mkHeaderNode l v None))
    (Hlink : ∀ l v p, P p → P (mkHeaderNode l v (Some p)))
    (n : HeaderNode) : P n :=
  match n with
  | mkHeaderNode l v None => Hroot l v
  | mkHeaderNode l v (Some p) =>
      Hlink l v p (HeaderNode_parent_ind P Hroot Hlink p)
  end.

(** A command has no target: no heading at or before the cursor line, or,
    for a sibling command, no sibling in its direction. *)
Definition noTarget (c : Command) (text : jsstring) (cursorLine : nat) : Prop :=
  (∀ h, h ∈ buildHeaders text → cursorLine < line h) ∨
  ∃ i, findCurrentIndex (buildHeaders text) cursorLine = Some i ∧
       match c with
       | FocusOnCurrentHeader => False
       | FocusOnNextHeader => findNextSibling (buildHeaders text) i = None
       | FocusOnPreviousHeader => findPreviousSibling (buildHeaders text) i = None
       end.

(** A document that starts with text before its first heading. *)
Definition preambleDoc : jsstring := joinLines ["intro"; "# A"; "text"]%string.

(** No heading is more than one level deeper than the heading before it. *)
Definition noLevelSkip (hs : list HeaderNode) : Prop :=
  ∀ k a b, hs !! k = Some a → hs !! S k = Some b → level b ≤ S (level a).

(** A text without any heading line. *)
Definition plainDoc : jsstring := joinLines ["plain"; "#no space"; ""]%string.

(** * Properties *)

Example split_pieces :
  split (joinLines ["a"; ""; "b"; ""]%string)
  = [ofString "a"; []; ofString "b"; []] ∧ split [] = [[]].
Proof. split; reflexivity. Qed.

Example matchHeader_cases :
  matchHeader (ofString "## B") = Some 2 ∧
  matchHeader (ofString "##B") = None ∧
  matchHeader (ofString " # B") = None ∧
  matchHeader (ofString "#") = None ∧
  matchHeader (ofString "### ") = Some 3.
Proof. repeat split; reflexivity. Qed.

Example buildHeaders_scenario :
  map (λ n, (line n, level n, line <$> parent n)) (buildHeaders scenario)
  = [(0, 1, None); (1, 2, Some 0); (2, 2, Some 0); (3, 3, Some 2); (4, 2, Some 0)].
Proof. vm_compute. reflexivity. Qed.

Example scenario_A :
  visible (currentUnfoldLines (mkEditor scenario 1 0 ())) (seq 0 6) = [0; 1].
Proof. vm_compute. reflexivity. Qed.

Example scenario_B :
  visible (siblingUnfoldLines findNextSibling scenario 2) (seq 0 6) = [0; 4].
Proof. vm_compute. reflexivity. Qed.

Example scenario_C :
  visible (siblingUnfoldLines findPreviousSibling scenario 4) (seq 0 6)
  = [0; 2; 3].
Proof. vm_compute. reflexivity. Qed.

(** ** The pattern *)

Section Pattern.

Lemma hash_not_white : isWhiteSpace HASH = false.
Proof. reflexivity. Qed.

Lemma hashRun_replicate k rest :
  head rest ≠ Some HASH → hashRun (replicate k HASH ++ rest) = k.
Proof.
  intros Hrest. induction k as [| k IH]; simpl.
  - destruct rest as [| c rest']; [reflexivity |]. simpl.
    destruct (N.eqb_spec c HASH) as [-> | _]; [| reflexivity].
    simpl in Hrest. congruence.
  - rewrite IH. reflexivity.
Qed.

Lemma hashRun_split s :
  ∃ rest, s = replicate (hashRun s) HASH ++ rest ∧ head rest ≠ Some HASH.
Proof.
  induction s as [| c s IH]; simpl.
  - exists []. split; [reflexivity | discriminate].
  - destruct (N.eqb_spec c HASH) as [-> | Hc].
    + destruct IH as (rest & Hs & Hrest). exists rest. split; [| exact Hrest].
      simpl. f_equal. exact Hs.
    + exists (c :: s). split; [reflexivity |]. simpl. congruence.
Qed.

Lemma markerCount_hashRun s k : markerCount s k ↔ k = hashRun s.
Proof.
  split.
  - intros (rest & -> & Hrest). symmetry. by apply hashRun_replicate.
  - intros ->. apply hashRun_split.
Qed.

Lemma lookup_replicate_app (k j : nat) (rest : jsstring) :
  j < k → (replicate k HASH ++ rest) !! j = Some HASH.
Proof.
  intros Hj. rewrite lookup_app_l by (rewrite length_replicate; lia).
  apply lookup_replicate. split; [reflexivity | lia].
Qed.

(** Giving characters back never helps: below the full run the next
    character is a [#]. *)
Lemma matchHeaderUpTo_below s k :
  k < hashRun s → matchHeaderUpTo s k = None.
Proof.
  destruct (hashRun_split s) as (rest & Hs & Hrest).
  induction k as [| k IH]; intros Hk; simpl; [reflexivity |].
  assert (s !! S k = Some HASH) as ->.
  { rewrite Hs. apply lookup_replicate_app. lia. }
  rewrite hash_not_white. apply IH. lia.
Qed.

Lemma matchHeader_Some s k :
  matchHeader s = Some k ↔
  k = hashRun s ∧ 0 < k ∧ ∃ c, s !! k = Some c ∧ isWhiteSpace c = true.
Proof.
  unfold matchHeader. destruct (hashRun s) as [| r] eqn:Hrun; simpl.
  - split; [discriminate | lia].
  - rewrite matchHeaderUpTo_below by lia.
    destruct (s !! S r) as [c |] eqn:Hc.
    + destruct (isWhiteSpace c) eqn:Hw.
      * split; [intros [= <-] | intros [-> _]; reflexivity].
        split_and!; [done | lia | eauto].
      * split; [discriminate |]. intros (-> & _ & c' & Hc' & Hw'). congruence.
    + split; [discriminate |]. intros (-> & _ & c' & Hc' & Hw'). congruence.
Qed.

(** The matcher accepts exactly the lines of the heading pattern. *)
Lemma matchHeader_pattern s :
  is_Some (matchHeader s) ↔ headingPattern s.
Proof.
  split.
  - intros [k (-> & Hpos & c & Hc & Hw)%matchHeader_Some].
    destruct (hashRun_split s) as (rest & Hs & Hrest).
    revert Hpos Hc Hs. generalize (hashRun s). intros k Hpos Hc ->.
    exists k, c.
    rewrite lookup_app_r, length_replicate, Nat.sub_diag in Hc
      by (rewrite length_replicate; lia).
    destruct rest as [| c' rest']; simplify_eq/=.
    exists rest'. done.
  - intros (k & c & rest & Hk & -> & Hw).
    exists k. apply matchHeader_Some.
    assert (hashRun (replicate k HASH ++ c :: rest) = k) as Hrun.
    { apply hashRun_replicate. simpl. intros [= ->]. by rewrite hash_not_white in Hw. }
    rewrite Hrun. split_and!; [done | done |].
    exists c. split; [| done].
    by rewrite lookup_app_r, length_replicate, Nat.sub_diag
      by (rewrite length_replicate; lia).
Qed.

End Pattern.

(** ** The header list *)

Section Parser.

Lemma lastWith_snoc hs n l :
  lastWith (hs ++ [n]) l = if decide (level n = l) then Some n else lastWith hs l.
Proof.
  unfold lastWith. rewrite filter_app, filter_cons, filter_nil.
  case_decide.
  - apply last_snoc.
  - by rewrite app_nil_r.
Qed.

(** [lastWith] answers the node at the greatest position among those of the
    level asked for. *)
Lemma lastWith_Some hs l p :
  lastWith hs l = Some p →
  ∃ j, hs !! j = Some p ∧ level p = l ∧
       ∀ k m, j < k → hs !! k = Some m → level m ≠ l.
Proof.
  induction hs as [| n hs IH] using rev_ind; [discriminate |].
  rewrite lastWith_snoc. case_decide as Hl.
  - intros [= <-]. exists (length hs). split_and!.
    + by rewrite lookup_app_r, Nat.sub_diag by lia.
    + done.
    + intros k m Hk Hm. apply lookup_lt_Some in Hm.
      rewrite length_app in Hm. simpl in Hm. lia.
  - intros (j & Hj & Hp & Hlast)%IH. exists j. split_and!.
    + rewrite lookup_app_l; [done |]. by eapply lookup_lt_Some.
    + done.
    + intros k m Hk Hm.
      destruct (decide (k < length hs)) as [Hlt | Hge].
      * rewrite lookup_app_l in Hm by done. by eapply Hlast.
      * rewrite lookup_app_r in Hm by lia.
        destruct (k - length hs) as [| d]; simplify_eq/=. done.
Qed.

Lemma lastWith_None hs l :
  lastWith hs l = None ↔ ∀ m, m ∈ hs → level m ≠ l.
Proof.
  induction hs as [| n hs IH] using rev_ind.
  - split; [intros _ m Hm; by apply elem_of_nil in Hm | done].
  - rewrite lastWith_snoc. case_decide as Hl.
    + split; [discriminate |]. intros H. exfalso. apply (H n); [| done].
      apply elem_of_app. right. by apply list_elem_of_singleton.
    + rewrite IH. split.
      * intros H m [Hm | Hm%list_elem_of_singleton]%elem_of_app; [by apply H | by subst].
      * intros H m Hm. apply H, elem_of_app. by left.
Qed.

Lemma findParent_parentAfter (lbl : gmap nat HeaderNode) hs l :
  (∀ l', lbl !! l' = lastWith hs l') → findParent lbl l = parentAfter hs l.
Proof.
  intros Hlbl. induction l as [| l IH]; simpl; [reflexivity |].
  rewrite Hlbl, IH. reflexivity.
Qed.

(** The parent search answers the latest node of the greatest level that is
    at most [l] and has been seen. *)
Lemma parentAfter_Some hs l p :
  parentAfter hs l = Some p →
  ∃ j, hs !! j = Some p ∧ 0 < level p ≤ l ∧
       (∀ k m, j < k → hs !! k = Some m → level m ≠ level p) ∧
       (∀ m, m ∈ hs → ¬ (level p < level m ≤ l)).
Proof.
  induction l as [| l IH]; simpl; [discriminate |].
  destruct (lastWith hs (S l)) as [q |] eqn:Hq.
  - intros [= <-]. apply lastWith_Some in Hq as (j & Hj & Hlq & Hlast).
    exists j. rewrite Hlq. split_and!; [done | lia | lia | done | lia].
  - intros (j & Hj & Hlp & Hlast & Hgap)%IH.
    exists j. split_and!; [done | lia | lia | done |].
    intros m Hm Hlm. rewrite lastWith_None in Hq.
    specialize (Hq m Hm). specialize (Hgap m Hm). lia.
Qed.

Lemma parentAfter_None hs l :
  parentAfter hs l = None ↔ ∀ m, m ∈ hs → ¬ (0 < level m ≤ l).
Proof.
  induction l as [| l IH]; simpl.
  - split; [intros _ m _; lia | done].
  - destruct (lastWith hs (S l)) as [q |] eqn:Hq.
    + split; [discriminate |]. intros H. exfalso.
      apply lastWith_Some in Hq as (j & Hj & Hlq & _).
      apply (H q); [by eapply list_elem_of_lookup_2 | lia].
    + rewrite lastWith_None in Hq. rewrite IH. split.
      * intros H m Hm Hlm. specialize (H m Hm). specialize (Hq m Hm). lia.
      * intros H m Hm Hlm. specialize (H m Hm). lia.
Qed.


Lemma parseInit_inv : ParseInv 0 parseInit.
Proof.
  split; simpl.
  - intros n Hn. by apply elem_of_nil in Hn.
  - intros j k a b Ha. by rewrite lookup_nil in Ha.
  - intros l. by rewrite lookup_empty.
  - intros k n Hn. by rewrite lookup_nil in Hn.
Qed.

Lemma parseLine_inv i ln st :
  ParseInv i st → ParseInv (S i) (parseLine i ln st).
Proof.
  intros [Hlines Hsorted Hlast Hparent]. unfold parseLine.
  destruct (matchHeader ln) as [lvl |] eqn:Hmatch.
  2: { split; try done. intros n Hn. specialize (Hlines n Hn). lia. }
  apply matchHeader_Some in Hmatch as (_ & Hpos & _).
  set (node := mkHeaderNode i lvl _).
  split; simpl.
  - intros n [Hn | Hn%list_elem_of_singleton]%elem_of_app.
    + specialize (Hlines n Hn). lia.
    + subst n. simpl. lia.
  - intros j k a b Ha Hb Hjk.
    assert (j < length (headers st)) as Hj.
    { apply lookup_lt_Some in Hb. rewrite length_app in Hb. simpl in Hb. lia. }
    rewrite lookup_app_l in Ha by done.
    destruct (decide (k < length (headers st))) as [Hk | Hk].
    + rewrite lookup_app_l in Hb by done. by eapply Hsorted.
    + rewrite lookup_app_r in Hb by lia.
      destruct (k - length (headers st)) as [| d]; simplify_eq/=.
      apply Hlines. by eapply list_elem_of_lookup_2.
  - intros l. rewrite lastWith_snoc, lookup_insert. simpl.
    repeat case_decide; first [done | apply Hlast].
  - intros k n Hn.
    destruct (decide (k < length (headers st))) as [Hk | Hk].
    + rewrite lookup_app_l in Hn by done.
      rewrite take_app_le by lia. by apply Hparent.
    + rewrite lookup_app_r in Hn by lia.
      destruct (k - length (headers st)) as [| d] eqn:Hd; simplify_eq/=.
      assert (k = length (headers st)) as -> by lia.
      rewrite take_app_length. split; [done |].
      by apply findParent_parentAfter.
Qed.

Lemma parseLoop_inv lines : ∀ i st,
  ParseInv i st → ParseInv (i + length lines) (parseLoop i lines st).
Proof.
  induction lines as [| ln lines IH]; intros i st Hinv; simpl.
  - by rewrite Nat.add_0_r.
  - replace (i + S (length lines)) with (S i + length lines) by lia.
    by apply IH, parseLine_inv.
Qed.

(** The nodes of the list, line by line. *)
Lemma parseLoop_lines lines : ∀ i st x lvl,
  (∃ n, n ∈ headers (parseLoop i lines st) ∧ line n = x ∧ level n = lvl) ↔
  (∃ n, n ∈ headers st ∧ line n = x ∧ level n = lvl) ∨
  (∃ j ln, x = i + j ∧ lines !! j = Some ln ∧ matchHeader ln = Some lvl).
Proof.
  induction lines as [| ln lines IH]; intros i st x lvl; simpl.
  - split; [by left |]. intros [H | (j & ln & _ & Hj & _)]; [done |].
    by rewrite lookup_nil in Hj.
  - rewrite IH. unfold parseLine.
    destruct (matchHeader ln) as [lv |] eqn:Hmatch; simpl.
    + split.
      * intros [(n & [Hn | Hn%list_elem_of_singleton]%elem_of_app & Hx & Hl)
               | (j & ln' & -> & Hj & Hm)].
        -- left. eauto.
        -- right. exists 0, ln. subst n. simpl in *. subst.
           split_and!; [lia | done | done].
        -- right. exists (S j), ln'. split_and!; [lia | done | done].
      * intros [(n & Hn & Hx & Hl) | (j & ln' & -> & Hj & Hm)].
        -- left. exists n. split_and!; [| done | done].
           apply elem_of_app. by left.
        -- destruct j as [| j]; simplify_eq/=.
           ++ left. eexists. split_and!.
              ** apply elem_of_app. right. by apply list_elem_of_singleton.
              ** simpl. lia.
              ** done.
           ++ right. exists j, ln'. split_and!; [lia | done | done].
    + split.
      * intros [H | (j & ln' & -> & Hj & Hm)]; [by left |].
        right. exists (S j), ln'. split_and!; [lia | done | done].
      * intros [H | (j & ln' & -> & Hj & Hm)]; [by left |].
        destruct j as [| j]; simplify_eq/=.
        right. exists j, ln'. split_and!; [lia | done | done].
Qed.

Lemma buildHeaders_inv text :
  ParseInv (length (split text)) (parseLines (split text)).
Proof. apply (parseLoop_inv (split text) 0 parseInit), parseInit_inv. Qed.

Lemma buildHeaders_sorted text j k a b :
  buildHeaders text !! j = Some a → buildHeaders text !! k = Some b →
  j < k → line a < line b.
Proof. apply (inv_sorted _ _ (buildHeaders_inv text)). Qed.

Lemma buildHeaders_parent text k n :
  buildHeaders text !! k = Some n →
  0 < level n ∧ parent n = parentAfter (take k (buildHeaders text)) (level n - 1).
Proof. apply (inv_parent _ _ (buildHeaders_inv text)). Qed.

Lemma buildHeaders_lines text x lvl :
  (∃ n, n ∈ buildHeaders text ∧ line n = x ∧ level n = lvl) ↔
  ∃ ln, split text !! x = Some ln ∧ matchHeader ln = Some lvl.
Proof.
  unfold buildHeaders, parseLines. rewrite parseLoop_lines. simpl. split.
  - intros [(n & Hn & _) | (j & ln & -> & Hj & Hm)]; [by apply elem_of_nil in Hn |].
    eauto.
  - intros (ln & Hx & Hm). right. exists x, ln. done.
Qed.

End Parser.

(** ** The tree carried by the parent links *)



Lemma buildHeaders_tree text : TreeShaped (buildHeaders text).
Proof.
  split.
  - apply buildHeaders_sorted.
  - intros k n p Hn Hp.
    destruct (buildHeaders_parent text k n Hn) as [Hpos Hpar].
    rewrite Hp in Hpar. symmetry in Hpar.
    apply parentAfter_Some in Hpar as (j & Hj & Hlvl & _).
    apply lookup_take_Some in Hj as [Hj Hjk].
    exists j. split_and!; [done | done | lia].
Qed.

(** The list holds each node once, and the parent of a node of the list is a
    node of the list: equality of node values stands for [===]. *)
Lemma buildHeaders_lookup_inj text j k n :
  buildHeaders text !! j = Some n → buildHeaders text !! k = Some n → j = k.
Proof.
  intros Hj Hk.
  destruct (Nat.lt_trichotomy j k) as [H | [H | H]]; [| done |].
  - pose proof (buildHeaders_sorted text j k n n Hj Hk H). lia.
  - pose proof (buildHeaders_sorted text k j n n Hk Hj H). lia.
Qed.

Lemma buildHeaders_parent_closed text n p :
  n ∈ buildHeaders text → parent n = Some p → p ∈ buildHeaders text.
Proof.
  intros [k Hn]%list_elem_of_lookup Hp.
  destruct (ts_parent _ (buildHeaders_tree text) k n p Hn Hp) as (j & _ & Hj & _).
  by eapply list_elem_of_lookup_2.
Qed.

Section Tree.
Context (hs : list HeaderNode) (T : TreeShaped hs).

Lemma ts_lookup_inj j k a b :
  hs !! j = Some a → hs !! k = Some b → line a = line b → j = k.
Proof using T.
  intros Ha Hb Hab.
  destruct (Nat.lt_trichotomy j k) as [H | [H | H]]; [| done |].
  - pose proof (ts_sorted hs T j k a b Ha Hb H). lia.
  - pose proof (ts_sorted hs T k j b a Hb Ha H). lia.
Qed.

Lemma ts_line_inj a b : a ∈ hs → b ∈ hs → line a = line b → a = b.
Proof using T.
  intros [j Ha]%list_elem_of_lookup [k Hb]%list_elem_of_lookup Hab.
  assert (j = k) as -> by by eapply ts_lookup_inj.
  congruence.
Qed.

Lemma ancestorOf_unfold a n :
  ancestorOf a n ↔ ∃ p, parent n = Some p ∧ (a = p ∨ ancestorOf a p).
Proof.
  destruct n as [l v [p |]]; simpl.
  - split; [eauto | by intros (? & [= <-] & ?)].
  - split; [done | by intros (? & ? & ?)].
Qed.

Lemma ancestorOf_parent p n : parent n = Some p → ancestorOf p n.
Proof. intros H. apply ancestorOf_unfold. eauto. Qed.

Lemma ancestorOf_trans a b c : ancestorOf a b → ancestorOf b c → ancestorOf a c.
Proof.
  intros Hab. induction c as [l v | l v p IH] using HeaderNode_parent_ind;
    simpl; [done |].
  intros [-> | Hbp]; [by right | right; by apply IH].
Qed.

(** The first link of a chain that leads down from [a] to [d]. *)
Lemma ancestorOf_child a d :
  ancestorOf a d → ∃ c, parent c = Some a ∧ (c = d ∨ ancestorOf c d).
Proof.
  induction d as [l v | l v p IH] using HeaderNode_parent_ind; simpl; [done |].
  intros [-> | Hap].
  - eexists. split; [| by left]. done.
  - destruct (IH Hap) as (c & Hc & Hcp). exists c. split; [done |].
    right. simpl. destruct Hcp as [-> | Hcp]; eauto.
Qed.

(** Every ancestor of a node of the list is an earlier node of the list, of
    smaller level. *)
Lemma ts_ancestor k n a :
  hs !! k = Some n → ancestorOf a n →
  ∃ j, j < k ∧ hs !! j = Some a ∧ level a < level n.
Proof using T.
  revert n. induction k as [k IH] using lt_wf_ind. intros n Hn Ha.
  apply ancestorOf_unfold in Ha as (p & Hp & Ha).
  destruct (ts_parent hs T k n p Hn Hp) as (j & Hjk & Hj & Hlvl).
  destruct Ha as [-> | Ha]; [eauto |].
  destruct (IH j Hjk p Hj Ha) as (j' & Hj' & Hja & Hlvl').
  exists j'. split_and!; [lia | done | lia].
Qed.

Lemma ts_ancestor_elem n a : n ∈ hs → ancestorOf a n → a ∈ hs ∧ level a < level n.
Proof using T.
  intros [k Hn]%list_elem_of_lookup Ha.
  destruct (ts_ancestor k n a Hn Ha) as (j & _ & Hj & Hlvl).
  split; [by eapply list_elem_of_lookup_2 | done].
Qed.

Lemma ancestorOf_irrefl n : n ∈ hs → ¬ ancestorOf n n.
Proof using T. intros Hn [_ H]%ts_ancestor_elem; [lia | done]. Qed.

Lemma collectAncestors_spec n : ∀ acc x,
  x ∈ collectAncestors n acc ↔
  x ∈ acc ∨ x = line n ∨ ∃ a, ancestorOf a n ∧ line a = x.
Proof.
  induction n as [l v | l v p IH] using HeaderNode_parent_ind;
    intros acc x; simpl.
  - set_solver.
  - rewrite IH. split.
    + intros [[->%elem_of_singleton | H]%elem_of_union | [-> | (a & Ha & <-)]];
        eauto 8.
    + intros [H | [-> | (a & [-> | Ha] & <-)]]; [set_solver | set_solver | eauto | eauto 8].
Qed.

(** [collectDescendants] returns, given fuel for the nodes that follow
    [node] in the list, and adds the lines of [node] and of the nodes below
    it. *)
Lemma collectDescendants_enough : ∀ fuel i node acc,
  hs !! i = Some node → length hs ≤ fuel + i →
  ∃ lines, collectDescendants fuel hs node acc = Some lines ∧
    ∀ x, x ∈ lines ↔
         x ∈ acc ∨ x = line node ∨
         ∃ d, d ∈ hs ∧ ancestorOf node d ∧ line d = x.
Proof using T.
  induction fuel as [| fuel IHfuel]; intros i node acc Hnode Hfuel.
  { apply lookup_lt_Some in Hnode. lia. }
  simpl.
  assert (∀ l acc0, (∀ c, c ∈ l → c ∈ hs) →
    ∃ lines,
      foldl
        (λ (acc : option (gset nat)) (child : HeaderNode),
           match acc with
           | Some lines =>
               if decide (parent child = Some node)
               then collectDescendants fuel hs child lines
               else Some lines
           | None => None
           end) (Some acc0) l = Some lines ∧
      ∀ x, x ∈ lines ↔
           x ∈ acc0 ∨
           ∃ c, c ∈ l ∧ parent c = Some node ∧
                (x = line c ∨ ∃ d, d ∈ hs ∧ ancestorOf c d ∧ line d = x))
    as Hloop.
  { induction l as [| c l IHl]; intros acc0 Hl; simpl.
    - exists acc0. split; [done |]. intros x. split; [by left |].
      intros [H | (c & Hc & _)]; [done | by apply elem_of_nil in Hc].
    - assert (c ∈ hs) as Hc by (apply Hl; left).
      assert (∀ c', c' ∈ l → c' ∈ hs) as Hl' by (intros; apply Hl; by right).
      case_decide as Hpar.
      + apply list_elem_of_lookup in Hc as [k Hk].
        destruct (ts_parent hs T k c node Hk Hpar) as (j & Hjk & Hj & _).
        assert (j = i) as -> by by eapply ts_lookup_inj.
        destruct (IHfuel k c acc0 Hk) as (l1 & -> & Hl1); [lia |].
        destruct (IHl l1 Hl') as (l2 & -> & Hl2).
        exists l2. split; [done |]. intros x. rewrite Hl2, Hl1. split.
        * intros [[H | H] | (c' & Hc' & H)]; [by left | | ].
          -- right. exists c. split_and!; [left | done |].
             destruct H as [-> | H]; eauto.
          -- right. exists c'. split; [by right | done].
        * intros [H | (c' & [-> | Hc']%elem_of_cons & Hp' & H)]; [eauto | |].
          -- left. right. destruct H as [-> | H]; eauto.
          -- right. eauto.
      + destruct (IHl acc0 Hl') as (l2 & -> & Hl2).
        exists l2. split; [done |]. intros x. rewrite Hl2. split.
        * intros [H | (c' & Hc' & H)]; [by left |].
          right. exists c'. split; [by right | done].
        * intros [H | (c' & [-> | Hc']%elem_of_cons & Hp' & H)]; [eauto | done |].
          right. eauto. }
  destruct (Hloop hs ({[line node]} ∪ acc)) as (lines & -> & Hlines); [done |].
  exists lines. split; [done |]. intros x. rewrite Hlines. split.
  - intros [[->%elem_of_singleton | H]%elem_of_union | (c & Hc & Hpar & H)];
      [eauto | eauto |].
    right. right. apply ancestorOf_parent in Hpar.
    destruct H as [-> | (d & Hd & Hcd & <-)]; [eauto |].
    exists d. split_and!; [done | | done]. by eapply ancestorOf_trans.
  - intros [H | [-> | (d & Hd & Hnd & <-)]]; [set_solver | set_solver |].
    right. destruct (ancestorOf_child node d Hnd) as (c & Hc & Hcd).
    exists c. destruct Hcd as [-> | Hcd]; [eauto |].
    split_and!; [| done | eauto]. by apply (ts_ancestor_elem d c).
Qed.

(** The unfold set of a focus node of the list. *)
Lemma computeUnfoldLines_spec focus :
  focus ∈ hs →
  ∃ lines, computeUnfoldLines hs focus = Some lines ∧
    ∀ x, x ∈ lines ↔
         x = line focus ∨
         (∃ a, ancestorOf a focus ∧ line a = x) ∨
         (∃ d, d ∈ hs ∧ ancestorOf focus d ∧ line d = x).
Proof using T.
  intros [i Hi]%list_elem_of_lookup. unfold computeUnfoldLines.
  destruct (collectDescendants_enough (S (length hs)) i focus
              (collectAncestors focus ∅) Hi) as (lines & Hrun & Hlines); [lia |].
  exists lines. split; [done |]. intros x.
  rewrite Hlines, collectAncestors_spec. set_solver.
Qed.

(** Read on the headings: a heading of the list has its line in the set
    exactly when it is the focus, above it or below it. *)
Lemma computeUnfoldLines_headers focus lines h :
  focus ∈ hs → computeUnfoldLines hs focus = Some lines → h ∈ hs →
  line h ∈ lines ↔ h = focus ∨ ancestorOf h focus ∨ ancestorOf focus h.
Proof using T.
  intros Hfocus Hrun Hh.
  destruct (computeUnfoldLines_spec focus Hfocus) as (lines' & Hrun' & Hlines).
  assert (lines' = lines) as -> by congruence.
  rewrite Hlines. split.
  - intros [Hl | [(a & Ha & Hl) | (d & Hd & Hfd & Hl)]].
    + left. by apply ts_line_inj.
    + right. left. destruct (ts_ancestor_elem focus a Hfocus Ha) as [Ha' _].
      by rewrite <- (ts_line_inj a h Ha' Hh Hl).
    + right. right. by rewrite <- (ts_line_inj d h Hd Hh Hl).
  - intros [-> | [H | H]]; eauto 6.
Qed.

End Tree.

(** ** The locator *)

Section Locator.
Context (hs : list HeaderNode) (cursorLine : nat).

Lemma findCurrentIndexFrom_Some n i :
  n ≤ length hs →
  findCurrentIndexFrom hs cursorLine n = Some i ↔
  i < n ∧ (∃ h, hs !! i = Some h ∧ line h ≤ cursorLine) ∧
  ∀ k m, i < k < n → hs !! k = Some m → cursorLine < line m.
Proof.
  induction n as [| n IH]; intros Hn; simpl.
  { split; [discriminate | lia]. }
  destruct (lookup_lt_is_Some_2 hs n) as [h Hh]; [lia |]. rewrite Hh.
  case_decide as Hle.
  - split.
    + intros [= <-]. split_and!; [lia | eauto | lia].
    + intros (Hi & _ & Hlast). f_equal.
      destruct (decide (i = n)) as [-> | Hne]; [done |].
      specialize (Hlast n h ltac:(lia) Hh). lia.
  - rewrite IH by lia. split.
    + intros (Hi & Hex & Hlast). split_and!; [lia | done |].
      intros k m Hk Hm. destruct (decide (k = n)) as [-> | Hne].
      * simplify_eq. lia.
      * apply (Hlast k m); [lia | done].
    + intros (Hi & (h' & Hh' & Hle') & Hlast).
      assert (i ≠ n) by (intros ->; simplify_eq; lia).
      split_and!; [lia | eauto |]. intros k m Hk. apply (Hlast k m). lia.
Qed.

Lemma findCurrentIndexFrom_None n :
  n ≤ length hs →
  findCurrentIndexFrom hs cursorLine n = None ↔
  ∀ k m, k < n → hs !! k = Some m → cursorLine < line m.
Proof.
  induction n as [| n IH]; intros Hn; simpl.
  { split; [intros _ k m Hk; lia | done]. }
  destruct (lookup_lt_is_Some_2 hs n) as [h Hh]; [lia |]. rewrite Hh.
  case_decide as Hle.
  - split; [discriminate |]. intros H. specialize (H n h ltac:(lia) Hh). lia.
  - rewrite IH by lia. split.
    + intros H k m Hk Hm. destruct (decide (k = n)) as [-> | Hne].
      * simplify_eq. lia.
      * apply (H k m); [lia | done].
    + intros H k m Hk. apply (H k m). lia.
Qed.

(** The node kept by [focusOnCurrentHeader] is the one at the index kept
    by the sibling commands. *)
Lemma findCurrentHeaderFrom_index n :
  findCurrentHeaderFrom hs cursorLine n =
  findCurrentIndexFrom hs cursorLine n ≫= (hs !!.).
Proof.
  induction n as [| n IH]; simpl; [done |].
  destruct (hs !! n) as [h |] eqn:Hh; [| done].
  case_decide; [by simpl | done].
Qed.

Lemma findCurrentHeader_index :
  findCurrentHeader hs cursorLine = findCurrentIndex hs cursorLine ≫= (hs !!.).
Proof. apply findCurrentHeaderFrom_index. Qed.

Lemma findCurrentIndex_lookup i :
  findCurrentIndex hs cursorLine = Some i →
  ∃ h, hs !! i = Some h ∧ findCurrentHeader hs cursorLine = Some h.
Proof.
  intros Hi. rewrite findCurrentHeader_index, Hi. simpl.
  apply findCurrentIndexFrom_Some in Hi as (_ & (h & Hh & _) & _); [eauto | done].
Qed.

End Locator.

(** ** The scans *)

Section Scan.
Context (hs : list HeaderNode) (lvl : nat) (par : option HeaderNode).

Lemma scanNext_Some rest s :
  scanNext lvl par rest = Some s ↔
  ∃ j, rest !! j = Some s ∧ isSibling lvl par s ∧
       ∀ k m, k < j → rest !! k = Some m → lvl < level m.
Proof.
  induction rest as [| h rest IH]; simpl.
  { split; [discriminate | by intros (j & Hj & _)]. }
  case_decide as Hsib; [| case_decide as Hle].
  - split.
    + intros [= <-]. exists 0. split_and!; [done | done | lia].
    + intros ([| j] & Hj & Hs & Hskip); simplify_eq/=; [done |].
      specialize (Hskip 0 h ltac:(lia) eq_refl). destruct Hsib as [Hl _]. lia.
  - split; [discriminate |].
    intros ([| j] & Hj & Hs & Hskip); simplify_eq/=; [done |].
    specialize (Hskip 0 h ltac:(lia) eq_refl). lia.
  - rewrite IH. split.
    + intros (j & Hj & Hs & Hskip). exists (S j). split_and!; [done | done |].
      intros [| k] m Hk Hm; simplify_eq/=; [lia |]. apply (Hskip k); [lia | done].
    + intros ([| j] & Hj & Hs & Hskip); simplify_eq/=; [done |].
      exists j. split_and!; [done | done |].
      intros k m Hk Hm. apply (Hskip (S k)); [lia | done].
Qed.

Lemma scanPrev_Some n s :
  n ≤ length hs →
  scanPrev hs lvl par n = Some s ↔
  ∃ j, j < n ∧ hs !! j = Some s ∧ isSibling lvl par s ∧
       ∀ k m, j < k < n → hs !! k = Some m → lvl < level m.
Proof.
  induction n as [| n IH]; intros Hn; simpl.
  { split; [discriminate | intros (j & Hj & _); lia]. }
  destruct (lookup_lt_is_Some_2 hs n) as [h Hh]; [lia |]. rewrite Hh.
  case_decide as Hsib; [| case_decide as Hle].
  - split.
    + intros [= <-]. exists n. split_and!; [lia | done | done | lia].
    + intros (j & Hj & Hjs & Hs & Hskip).
      destruct (decide (j = n)) as [-> | Hne]; [congruence |].
      specialize (Hskip n h ltac:(lia) Hh). destruct Hsib as [Hl _]. lia.
  - split; [discriminate |].
    intros (j & Hj & Hjs & Hs & Hskip).
    destruct (decide (j = n)) as [-> | Hne]; [by simplify_eq |].
    specialize (Hskip n h ltac:(lia) Hh). lia.
  - rewrite IH by lia. split.
    + intros (j & Hj & Hjs & Hs & Hskip). exists j.
      split_and!; [lia | done | done |].
      intros k m Hk Hm. destruct (decide (k = n)) as [-> | Hne].
      * simplify_eq. lia.
      * apply (Hskip k); [lia | done].
    + intros (j & Hj & Hjs & Hs & Hskip).
      assert (j ≠ n) by (intros ->; by simplify_eq).
      exists j. split_and!; [lia | done | done |].
      intros k m Hk. apply (Hskip k m). lia.
Qed.

End Scan.

Lemma findNextSibling_Some hs idx cur s :
  hs !! idx = Some cur →
  findNextSibling hs idx = Some s ↔
  ∃ j, idx < j ∧ hs !! j = Some s ∧
       isSibling (level cur) (parent cur) s ∧
       ∀ k m, idx < k < j → hs !! k = Some m → level cur < level m.
Proof.
  intros Hcur. unfold findNextSibling. rewrite Hcur, scanNext_Some. split.
  - intros (j & Hj & Hs & Hskip). rewrite lookup_drop in Hj.
    exists (S idx + j). split_and!; [lia | done | done |].
    intros k m Hk Hm. apply (Hskip (k - S idx)); [lia |].
    rewrite lookup_drop. by replace (S idx + (k - S idx)) with k by lia.
  - intros (j & Hj & Hjs & Hs & Hskip). exists (j - S idx).
    rewrite lookup_drop. replace (S idx + (j - S idx)) with j by lia.
    split_and!; [done | done |].
    intros k m Hk Hm. rewrite lookup_drop in Hm. apply (Hskip (S idx + k)); [lia | done].
Qed.

Lemma findPreviousSibling_Some hs idx cur s :
  hs !! idx = Some cur →
  findPreviousSibling hs idx = Some s ↔
  ∃ j, j < idx ∧ hs !! j = Some s ∧
       isSibling (level cur) (parent cur) s ∧
       ∀ k m, j < k < idx → hs !! k = Some m → level cur < level m.
Proof.
  intros Hcur. unfold findPreviousSibling. rewrite Hcur.
  apply scanPrev_Some. apply lookup_lt_Some in Hcur. lia.
Qed.

(** The focus node of a command is a node of the header list. *)
Lemma FocusNode_elem text cursorLine focus :
  FocusNode text cursorLine focus → focus ∈ buildHeaders text.
Proof.
  intros [h Hh | i s Hi Hs | i s Hi Hs].
  - rewrite findCurrentHeader_index in Hh.
    destruct (findCurrentIndex _ _) as [i |]; simplify_eq/=.
    by eapply list_elem_of_lookup_2.
  - destruct (findCurrentIndex_lookup _ _ _ Hi) as (cur & Hcur & _).
    destruct (proj1 (findNextSibling_Some _ _ cur s Hcur) Hs) as (j & _ & Hj & _).
    by eapply list_elem_of_lookup_2.
  - destruct (findCurrentIndex_lookup _ _ _ Hi) as (cur & Hcur & _).
    destruct (proj1 (findPreviousSibling_Some _ _ cur s Hcur) Hs) as (j & _ & Hj & _).
    by eapply list_elem_of_lookup_2.
Qed.

(** ** The parser, line by line *)

Lemma sorted_lines hs :
  (∀ j k a b, hs !! j = Some a → hs !! k = Some b → j < k → line a < line b) →
  StronglySorted lt (line <$> hs).
Proof.
  induction hs as [| h hs IH]; intros Hs; simpl; constructor.
  - apply IH. intros j k a b Ha Hb Hjk. apply (Hs (S j) (S k)); [done | done | lia].
  - apply Forall_forall. intros x (m & -> & [k Hm]%list_elem_of_lookup)%list_elem_of_fmap.
    apply (Hs 0 (S k)); [done | done | lia].
Qed.

(** C5: the parser emits a node for a line exactly when the line matches the
    heading pattern (one or more [#] followed by a white-space character, from
    the start of the line); the lines of the emitted nodes grow strictly
    along the list (so no line has two nodes); and the level of a node is the
    number of [#] its line starts with. *)
Theorem C5_parser_nodes_are_the_heading_lines (text : jsstring) :
  (∀ i, (∃ n, n ∈ buildHeaders text ∧ line n = i) ↔
        (∃ ln, split text !! i = Some ln ∧ headingPattern ln)) ∧
  StronglySorted lt (line <$> buildHeaders text) ∧
  (∀ n, n ∈ buildHeaders text →
        ∃ ln, split text !! line n = Some ln ∧ markerCount ln (level n)).
Proof.
  split_and!.
  - intros i. split.
    + intros (n & Hn & Hi).
      destruct (proj1 (buildHeaders_lines text i (level n))) as (ln & Hln & Hm);
        [eauto |].
      exists ln. split; [done |]. apply matchHeader_pattern. eauto.
    + intros (ln & Hln & [lvl Hm]%matchHeader_pattern).
      destruct (proj2 (buildHeaders_lines text i lvl)) as (n & Hn & Hi & _);
        eauto.
  - apply sorted_lines, buildHeaders_sorted.
  - intros n Hn.
    destruct (proj1 (buildHeaders_lines text (line n) (level n))) as (ln & Hln & Hm);
      [eauto |].
    exists ln. split; [done |].
    apply matchHeader_Some in Hm as (Hrun & _). by apply markerCount_hashRun.
Qed.

(** ** Parent links *)

(** What the parent of a node is: the latest earlier node of level [l], for
    the greatest [l] below the level of the node that an earlier node has. *)
Lemma buildHeaders_parent_Some text k n p :
  buildHeaders text !! k = Some n → parent n = Some p →
  ∃ j, j < k ∧ buildHeaders text !! j = Some p ∧ level p < level n ∧
       (∀ j' m, j < j' < k → buildHeaders text !! j' = Some m →
                level m ≠ level p) ∧
       (∀ j' m, j' < k → buildHeaders text !! j' = Some m →
                ¬ (level p < level m < level n)).
Proof.
  intros Hn Hp. destruct (buildHeaders_parent text k n Hn) as [Hpos Hpar].
  rewrite Hp in Hpar. symmetry in Hpar.
  apply parentAfter_Some in Hpar as (j & Hj & Hlvl & Hlast & Hgap).
  apply lookup_take_Some in Hj as [Hj Hjk].
  exists j. split_and!; [done | done | lia | |].
  - intros j' m Hj' Hm. apply (Hlast j' m); [lia |].
    apply lookup_take_Some. split; [done | lia].
  - intros j' m Hj' Hm Hlm. apply (Hgap m); [| lia].
    apply (list_elem_of_lookup_2 _ j'). apply lookup_take_Some. done.
Qed.

(** A node has no parent exactly when no earlier node has a smaller level. *)
Lemma buildHeaders_parent_None text k n :
  buildHeaders text !! k = Some n →
  parent n = None ↔
  ∀ j m, j < k → buildHeaders text !! j = Some m → level n ≤ level m.
Proof.
  intros Hn. destruct (buildHeaders_parent text k n Hn) as [Hpos ->].
  rewrite parentAfter_None. split.
  - intros H j m Hj Hm.
    assert (0 < level m) by by eapply buildHeaders_parent.
    assert (m ∈ take k (buildHeaders text)) as Hin.
    { apply (list_elem_of_lookup_2 _ j). by apply lookup_take_Some. }
    specialize (H m Hin). lia.
  - intros H m [j [Hm Hj]%lookup_take_Some]%list_elem_of_lookup.
    specialize (H j m Hj Hm). lia.
Qed.

(** C7: a parent, when there is one, has a level strictly smaller than that
    of the node; a heading of level 1 has no parent. *)
Theorem C7_parent_level_strictly_smaller (text : jsstring) (n : HeaderNode) :
  n ∈ buildHeaders text →
  (∀ p, parent n = Some p → level p < level n) ∧
  (level n = 1 → parent n = None).
Proof.
  intros [k Hn]%list_elem_of_lookup. split.
  - intros p Hp.
    destruct (ts_parent _ (buildHeaders_tree text) k n p Hn Hp) as (j & _ & _ & H).
    exact H.
  - intros Hl. destruct (buildHeaders_parent text k n Hn) as [_ ->].
    rewrite Hl. reflexivity.
Qed.

Lemma C7_witness :
  let n := mkHeaderNode 3 3 (Some (mkHeaderNode 2 2 (Some (mkHeaderNode 0 1 None)))) in
  n ∈ buildHeaders scenario ∧
  ((∀ p, parent n = Some p → level p < level n) ∧
   (level n = 1 → parent n = None)).
Proof.
  intros n.
  assert (n ∈ buildHeaders scenario) as Hn.
  { apply (list_elem_of_lookup_2 _ 3). vm_compute. reflexivity. }
  split; [exact Hn |].
  exact (C7_parent_level_strictly_smaller scenario n Hn).
Defined.

(** C1, on a document that skips a level after a shallower heading: the
    parser gives ["### C"] (line 2) the parent ["## B"] (line 0), although
    ["# A"] (line 1) lies between them and has a smaller level than C.  The
    entry of [lastByLevel] for level 2 is still the one set before A. *)
Theorem C1_parent_is_not_closest_on_staleDoc :
  map (λ n, (line n, level n, line <$> parent n)) (buildHeaders staleDoc)
  = [(0, 2, None); (1, 1, None); (2, 3, Some 0)] ∧
  ∃ n p m,
    n ∈ buildHeaders staleDoc ∧ parent n = Some p ∧
    m ∈ buildHeaders staleDoc ∧
    line m < line n ∧ level m < level n ∧ line p < line m.
Proof.
  split; [vm_compute; reflexivity |].
  exists (mkHeaderNode 2 3 (Some (mkHeaderNode 0 2 None))),
         (mkHeaderNode 0 2 None), (mkHeaderNode 1 1 None).
  split_and!.
  - apply (list_elem_of_lookup_2 _ 2). vm_compute. reflexivity.
  - reflexivity.
  - apply (list_elem_of_lookup_2 _ 1). vm_compute. reflexivity.
  - simpl. lia.
  - simpl. lia.
  - simpl. lia.
Qed.

(** C6, on the same document: C (line 2) chains back to B (line 0) through
    its parent link, and A (line 1), of level 1 ≤ 2, stands between them; the
    nodes below B are not a run that starts right after B. *)
Theorem C6_descendant_beyond_shallower_heading_on_staleDoc :
  ∃ n m d,
    n ∈ buildHeaders staleDoc ∧ m ∈ buildHeaders staleDoc ∧
    d ∈ buildHeaders staleDoc ∧
    ancestorOf n d ∧ ¬ ancestorOf n m ∧
    line n < line m < line d ∧ level m ≤ level n.
Proof.
  exists (mkHeaderNode 0 2 None), (mkHeaderNode 1 1 None),
         (mkHeaderNode 2 3 (Some (mkHeaderNode 0 2 None))).
  split_and!.
  - apply (list_elem_of_lookup_2 _ 0). vm_compute. reflexivity.
  - apply (list_elem_of_lookup_2 _ 1). vm_compute. reflexivity.
  - apply (list_elem_of_lookup_2 _ 2). vm_compute. reflexivity.
  - simpl. by left.
  - simpl. tauto.
  - simpl. lia.
  - simpl. lia.
  - simpl. lia.
Qed.

(** The same document through the planner: with the cursor on C the set
    holds the lines of C and B and not that of A. *)
Example staleDoc_focus_C :
  visible (currentUnfoldLines (mkEditor staleDoc 2 0 ())) (seq 0 4) = [0; 2].
Proof. vm_compute. reflexivity. Qed.

(** ** The current header *)

(** C4: on the header list of a text, the locator answers the node of
    greatest line among those whose line is at most the cursor line, and it
    answers nothing exactly when every heading lies after the cursor line.
    The index kept by the sibling commands is the position of that node. *)
Theorem C4_locator_greatest_line_up_to_cursor (text : jsstring) (cursorLine : nat) :
  (∀ h, findCurrentHeader (buildHeaders text) cursorLine = Some h ↔
        h ∈ buildHeaders text ∧ line h ≤ cursorLine ∧
        ∀ m, m ∈ buildHeaders text → line m ≤ cursorLine → line m ≤ line h) ∧
  (findCurrentHeader (buildHeaders text) cursorLine = None ↔
   ∀ m, m ∈ buildHeaders text → cursorLine < line m) ∧
  findCurrentHeader (buildHeaders text) cursorLine =
    findCurrentIndex (buildHeaders text) cursorLine ≫= (buildHeaders text !!.).
Proof.
  pose proof (buildHeaders_sorted text) as Hsorted.
  set (hs := buildHeaders text) in *.
  split_and!; [| | apply findCurrentHeader_index].
  - intros h. rewrite findCurrentHeader_index. split.
    + destruct (findCurrentIndex hs cursorLine) as [i |] eqn:Hi; [| done].
      simpl. intros Hh.
      apply findCurrentIndexFrom_Some in Hi as (Hlt & (h' & Hh' & Hle) & Hlast);
        [| done].
      assert (h' = h) as -> by congruence.
      split_and!; [by eapply list_elem_of_lookup_2 | done |].
      intros m [k Hm]%list_elem_of_lookup Hmle.
      destruct (Nat.lt_trichotomy k i) as [Hk | [-> | Hk]].
      * pose proof (Hsorted k i m h Hm Hh Hk). lia.
      * assert (m = h) as -> by congruence. lia.
      * assert (k < length hs) by by eapply lookup_lt_Some.
        pose proof (Hlast k m ltac:(lia) Hm). lia.
    + intros ([i Hh]%list_elem_of_lookup & Hle & Hmax).
      assert (findCurrentIndex hs cursorLine = Some i) as ->; [| done].
      apply findCurrentIndexFrom_Some; [done |].
      split_and!; [by eapply lookup_lt_Some | eauto |].
      intros k m Hk Hm.
      pose proof (Hsorted i k h m Hh Hm ltac:(lia)).
      destruct (decide (line m ≤ cursorLine)) as [Hmle | ?]; [| lia].
      assert (m ∈ hs) as Hin by by eapply list_elem_of_lookup_2.
      specialize (Hmax m Hin Hmle). lia.
  - rewrite findCurrentHeader_index.
    destruct (findCurrentIndex hs cursorLine) as [i |] eqn:Hi; simpl.
    + apply findCurrentIndexFrom_Some in Hi as (Hlt & (h & Hh & Hle) & _); [| done].
      rewrite Hh. split; [discriminate |]. intros H.
      assert (h ∈ hs) as Hin by by eapply list_elem_of_lookup_2.
      specialize (H h Hin). lia.
    + split; [intros _ | done].
      unfold findCurrentIndex in Hi.
      rewrite findCurrentIndexFrom_None in Hi by done.
      intros m [k Hm]%list_elem_of_lookup.
      apply (Hi k m); [by eapply lookup_lt_Some | done].
Qed.

(** ** Sibling navigation *)

(** C3: from the position of the current node, each scan answers the first
    node it meets whose level is that of the current node and whose parent is
    the parent of the current node, all the nodes passed on the way being
    strictly deeper; and it answers nothing as soon as it meets a node of
    equal or lower level that is not such a sibling.  So the node answered
    has the same parent, and no node of equal or lower level lies between
    it and the current node. *)
Theorem C3_sibling_scan (hs : list HeaderNode) (idx : nat) (cur : HeaderNode) :
  hs !! idx = Some cur →
  (∀ s, findNextSibling hs idx = Some s ↔
        ∃ j, idx < j ∧ hs !! j = Some s ∧
             (level s = level cur ∧ parent s = parent cur) ∧
             ∀ k m, idx < k < j → hs !! k = Some m → level cur < level m) ∧
  (∀ s, findPreviousSibling hs idx = Some s ↔
        ∃ j, j < idx ∧ hs !! j = Some s ∧
             (level s = level cur ∧ parent s = parent cur) ∧
             ∀ k m, j < k < idx → hs !! k = Some m → level cur < level m) ∧
  (∀ j m, idx < j → hs !! j = Some m → level m ≤ level cur →
          ¬ (level m = level cur ∧ parent m = parent cur) →
          (∀ k m', idx < k < j → hs !! k = Some m' → level cur < level m') →
          findNextSibling hs idx = None) ∧
  (∀ j m, j < idx → hs !! j = Some m → level m ≤ level cur →
          ¬ (level m = level cur ∧ parent m = parent cur) →
          (∀ k m', j < k < idx → hs !! k = Some m' → level cur < level m') →
          findPreviousSibling hs idx = None).
Proof.
  intros Hcur. split_and!.
  - intros s. apply (findNextSibling_Some hs idx cur s Hcur).
  - intros s. apply (findPreviousSibling_Some hs idx cur s Hcur).
  - intros j m Hj Hm Hle Hnot Hdeep.
    destruct (findNextSibling hs idx) as [s |] eqn:Hs; [exfalso | done].
    apply (findNextSibling_Some hs idx cur s Hcur) in Hs
      as (j' & Hj' & Hs & [Hl Hp] & Hdeep').
    destruct (Nat.lt_trichotomy j j') as [H | [-> | H]].
    + pose proof (Hdeep' j m ltac:(lia) Hm). lia.
    + assert (m = s) as -> by congruence. tauto.
    + pose proof (Hdeep j' s ltac:(lia) Hs). lia.
  - intros j m Hj Hm Hle Hnot Hdeep.
    destruct (findPreviousSibling hs idx) as [s |] eqn:Hs; [exfalso | done].
    apply (findPreviousSibling_Some hs idx cur s Hcur) in Hs
      as (j' & Hj' & Hs & [Hl Hp] & Hdeep').
    destruct (Nat.lt_trichotomy j j') as [H | [-> | H]].
    + pose proof (Hdeep j' s ltac:(lia) Hs). lia.
    + assert (m = s) as -> by congruence. tauto.
    + pose proof (Hdeep' j m ltac:(lia) Hm). lia.
Qed.

Lemma C3_witness :
  let hs := buildHeaders scenario in
  let cur := mkHeaderNode 2 2 (Some (mkHeaderNode 0 1 None)) in
  hs !! 2 = Some cur ∧
  (∀ s, findNextSibling hs 2 = Some s ↔
        ∃ j, 2 < j ∧ hs !! j = Some s ∧
             (level s = level cur ∧ parent s = parent cur) ∧
             ∀ k m, 2 < k < j → hs !! k = Some m → level cur < level m).
Proof.
  intros hs cur.
  assert (hs !! 2 = Some cur) as Hcur by (vm_compute; reflexivity).
  split; [exact Hcur |].
  exact (proj1 (C3_sibling_scan hs 2 cur Hcur)).
Defined.

(** ** The unfold set *)

(** C2: for the focus node of any of the three commands, the set of lines
    to unfold is computed, and it holds the line of the focus node, the lines
    of the nodes reached from it by parent links, and the lines of the nodes
    of the list whose parent links lead back to it, and nothing else; so a
    heading has its line in the set exactly when it is the focus node, one
    of its ancestors or one of its descendants. *)
Theorem C2_unfold_set_focus_ancestors_descendants
    (text : jsstring) (cursorLine : nat) (focus : HeaderNode) :
  FocusNode text cursorLine focus →
  ∃ unfoldLines,
    computeUnfoldLines (buildHeaders text) focus = Some unfoldLines ∧
    (∀ x, x ∈ unfoldLines ↔
          x = line focus ∨
          (∃ a, ancestorOf a focus ∧ line a = x) ∨
          (∃ d, d ∈ buildHeaders text ∧ ancestorOf focus d ∧ line d = x)) ∧
    (∀ h, h ∈ buildHeaders text →
          line h ∈ unfoldLines ↔
          h = focus ∨ ancestorOf h focus ∨ ancestorOf focus h).
Proof.
  intros Hfocus%FocusNode_elem.
  pose proof (buildHeaders_tree text) as T.
  destruct (computeUnfoldLines_spec _ T focus Hfocus) as (lines & Hrun & Hlines).
  exists lines. split_and!; [done | done |].
  intros h Hh. by apply (computeUnfoldLines_headers _ T).
Qed.

Lemma C2_witness :
  let focus := mkHeaderNode 4 2 (Some (mkHeaderNode 0 1 None)) in
  FocusNode scenario 2 focus ∧
  ∃ unfoldLines,
    computeUnfoldLines (buildHeaders scenario) focus = Some unfoldLines ∧
    (∀ x, x ∈ unfoldLines ↔
          x = line focus ∨
          (∃ a, ancestorOf a focus ∧ line a = x) ∨
          (∃ d, d ∈ buildHeaders scenario ∧ ancestorOf focus d ∧ line d = x)) ∧
    (∀ h, h ∈ buildHeaders scenario →
          line h ∈ unfoldLines ↔
          h = focus ∨ ancestorOf h focus ∨ ancestorOf focus h).
Proof.
  intros focus.
  assert (FocusNode scenario 2 focus) as Hfocus.
  { apply (focus_next scenario 2 2 focus); vm_compute; reflexivity. }
  split; [exact Hfocus |].
  exact (C2_unfold_set_focus_ancestors_descendants scenario 2 focus Hfocus).
Defined.

(** ** The commands *)

Lemma findCurrentIndex_None_iff hs cursorLine :
  findCurrentIndex hs cursorLine = None ↔ ∀ h, h ∈ hs → cursorLine < line h.
Proof.
  unfold findCurrentIndex. rewrite findCurrentIndexFrom_None by done. split.
  - intros H h [k Hk]%list_elem_of_lookup.
    apply (H k h); [by eapply lookup_lt_Some | done].
  - intros H k m _ Hm. apply H. by eapply list_elem_of_lookup_2.
Qed.

Lemma findCurrentHeader_None hs cursorLine :
  (∀ h, h ∈ hs → cursorLine < line h) → findCurrentHeader hs cursorLine = None.
Proof.
  intros H%findCurrentIndex_None_iff. by rewrite findCurrentHeader_index, H.
Qed.

(** A sibling found by either scan is another node of the list, of the same
    level. *)
Lemma sibling_other text i cur sibling :
  buildHeaders text !! i = Some cur →
  findNextSibling (buildHeaders text) i = Some sibling ∨
  findPreviousSibling (buildHeaders text) i = Some sibling →
  sibling ∈ buildHeaders text ∧ sibling ≠ cur ∧ level sibling = level cur.
Proof.
  intros Hcur Hs.
  assert (∃ j, j ≠ i ∧ buildHeaders text !! j = Some sibling ∧
               level sibling = level cur) as (j & Hji & Hj & Hl).
  { destruct Hs as [Hs | Hs].
    - apply (findNextSibling_Some _ _ cur _ Hcur) in Hs as (j & ? & ? & [? _] & _).
      exists j. split_and!; [lia | done | done].
    - apply (findPreviousSibling_Some _ _ cur _ Hcur) in Hs as (j & ? & ? & [? _] & _).
      exists j. split_and!; [lia | done | done]. }
  split_and!; [by eapply list_elem_of_lookup_2 | | done].
  intros ->. apply Hji.
  by apply (ts_lookup_inj _ (buildHeaders_tree text) j i cur cur).
Qed.

Section Commands.
Context {View Px : Type}.
Variable zeroPx : Px.
Variable docLineFrom : View → nat → nat.
Variable foldable : View → nat → option Range.
Variable coordsAtPosTop : View → nat → option Px.
Variable dispatch : View → list StateEffect → View.
Variable setScrollTop : View → Px → View.

Local Abbreviation callback := (editorCallback docLineFrom foldable).
Local Abbreviation runCalls := (run zeroPx coordsAtPosTop dispatch setScrollTop).

(** Every command answers: the recursion of [collectDescendants] ends
    within the fuel it is given. *)
Lemma editorCallback_total (c : Command) (editor : Editor View) :
  is_Some (callback c editor).
Proof.
  assert (∀ focus, FocusNode (value editor) (cursorLine editor) focus →
                   is_Some (computeUnfoldLines (buildHeaders (value editor)) focus))
    as Hplan.
  { intros focus Hin%FocusNode_elem.
    destruct (computeUnfoldLines_spec _ (buildHeaders_tree (value editor)) focus Hin)
      as (lines & -> & _). eauto. }
  destruct c; simpl;
    unfold focusOnCurrentHeader, focusOnNextSibling, focusOnPreviousSibling,
      focusOnSibling.
  - destruct (findCurrentHeader _ _) as [cur |] eqn:Hcur; [| eauto].
    destruct (Hplan cur) as [lines ->]; [by apply focus_current | eauto].
  - destruct (findCurrentIndex _ _) as [i |] eqn:Hi; [| eauto].
    destruct (findNextSibling _ i) as [s |] eqn:Hs; [| eauto].
    destruct (Hplan s) as [lines ->]; [by eapply focus_next | eauto].
  - destruct (findCurrentIndex _ _) as [i |] eqn:Hi; [| eauto].
    destruct (findPreviousSibling _ i) as [s |] eqn:Hs; [| eauto].
    destruct (Hplan s) as [lines ->]; [by eapply focus_previous | eauto].
Qed.

(** C10: when Focus on Next Header or Focus on Previous Header finds a
    sibling, the command dispatches the effects computed from the unfold set
    of that sibling, the line of the heading that was current is not in that
    set, and, when that heading has a foldable range, the dispatched effects
    fold it. *)
Theorem C10_sibling_move_folds_previous_heading
    (c : Command) (editor : Editor View) (i : nat) (cur sibling : HeaderNode) :
  findCurrentIndex (buildHeaders (value editor)) (cursorLine editor) = Some i →
  buildHeaders (value editor) !! i = Some cur →
  (c = FocusOnNextHeader ∧
     findNextSibling (buildHeaders (value editor)) i = Some sibling) ∨
  (c = FocusOnPreviousHeader ∧
     findPreviousSibling (buildHeaders (value editor)) i = Some sibling) →
  ∃ unfoldLines effects,
    computeUnfoldLines (buildHeaders (value editor)) sibling = Some unfoldLines ∧
    effects = foldEffects docLineFrom foldable (cm editor)
                (buildHeaders (value editor)) unfoldLines ∧
    callback c editor =
      Some [ Dispatch effects;
             ScrollTo (docLineFrom (cm editor) (line sibling + 1));
             SetCursor (line sibling) 0 ] ∧
    (line cur ∉ unfoldLines) ∧
    (∀ range,
       foldable (cm editor) (docLineFrom (cm editor) (line cur + 1)) = Some range →
       foldEffect range ∈ effects).
Proof.
  intros Hi Hcur Hfound.
  pose proof (buildHeaders_tree (value editor)) as T.
  set (hs := buildHeaders (value editor)) in *.
  assert (findNextSibling hs i = Some sibling ∨
          findPreviousSibling hs i = Some sibling) as Hs by tauto.
  destruct (sibling_other (value editor) i cur sibling Hcur Hs)
    as (Hin & Hne & Hlvl).
  assert (cur ∈ hs) as Hcin by by eapply list_elem_of_lookup_2.
  destruct (computeUnfoldLines_spec hs T sibling Hin) as (lines & Hrun & _).
  assert (line cur ∉ lines) as Hout.
  { rewrite (computeUnfoldLines_headers hs T sibling lines cur Hin Hrun Hcin).
    intros [-> | [Ha | Ha]]; [done | |].
    - apply (ts_ancestor_elem hs T sibling cur Hin) in Ha as [_ Ha]. lia.
    - apply (ts_ancestor_elem hs T cur sibling Hcin) in Ha as [_ Ha]. lia. }
  exists lines, (foldEffects docLineFrom foldable (cm editor) hs lines).
  split_and!; [done | done | | done |].
  - destruct Hfound as [[-> Hf] | [-> Hf]]; simpl;
      unfold focusOnNextSibling, focusOnPreviousSibling, focusOnSibling;
      fold hs; by rewrite Hi, Hf, Hrun.
  - intros range Hrange. unfold foldEffects.
    apply list_elem_of_omap. exists cur. split; [done |].
    rewrite Hrange. by rewrite decide_False.
Qed.

(** C8: a command that has no target (no heading at or before the cursor
    line, or no sibling in the direction asked for) makes no call to the
    editor: nothing is dispatched, the view is not scrolled, the cursor is
    not moved, and the editor stays as it was. *)
Theorem C8_no_target_no_effect (c : Command) (editor : Editor View) :
  noTarget c (value editor) (cursorLine editor) →
  ∃ calls, callback c editor = Some calls ∧ calls = [] ∧
           runCalls calls editor = editor.
Proof.
  intros Hno. exists []. split_and!; [| done | done].
  destruct Hno as [Hnone | (i & Hi & Hsib)].
  - pose proof (findCurrentHeader_None _ _ Hnone) as Hh.
    apply findCurrentIndex_None_iff in Hnone.
    destruct c; simpl;
      unfold focusOnCurrentHeader, focusOnNextSibling, focusOnPreviousSibling,
        focusOnSibling; by rewrite ?Hh, ?Hnone.
  - destruct c; simpl in *; [done | |];
      unfold focusOnNextSibling, focusOnPreviousSibling, focusOnSibling;
      by rewrite Hi, Hsib.
Qed.

(** C9: Focus on Current Header always answers; the calls it makes leave the
    text and the cursor line as they were, so the unfold set computed by a
    second invocation is the one computed by the first. *)
Theorem C9_focus_current_same_unfold_set_twice (editor : Editor View) :
  ∃ calls,
    focusOnCurrentHeader docLineFrom foldable editor = Some calls ∧
    value (runCalls calls editor) = value editor ∧
    cursorLine (runCalls calls editor) = cursorLine editor ∧
    currentUnfoldLines (runCalls calls editor) = currentUnfoldLines editor.
Proof.
  unfold focusOnCurrentHeader, currentUnfoldLines.
  destruct (findCurrentHeader (buildHeaders (value editor)) (cursorLine editor))
    as [cur |] eqn:Hcur.
  - assert (cur ∈ buildHeaders (value editor)) as Hin.
    { apply (FocusNode_elem _ (cursorLine editor)). by apply focus_current. }
    destruct (computeUnfoldLines_spec _ (buildHeaders_tree (value editor)) cur Hin)
      as (lines & Hrun & _).
    rewrite Hrun. eexists. split; [reflexivity |]. simpl.
    by rewrite Hcur, Hrun.
  - exists []. simpl. by rewrite Hcur.
Qed.

End Commands.

Lemma C10_witness :
  let editor := mkEditor scenario 2 0 () in
  let cur := mkHeaderNode 2 2 (Some (mkHeaderNode 0 1 None)) in
  let sibling := mkHeaderNode 4 2 (Some (mkHeaderNode 0 1 None)) in
  let docLineFrom := λ (_ : ()) (n : nat), n in
  let foldable := λ (_ : ()) (pos : nat), Some (mkRange pos (pos + 1)) in
  findCurrentIndex (buildHeaders scenario) 2 = Some 2 ∧
  buildHeaders scenario !! 2 = Some cur ∧
  findNextSibling (buildHeaders scenario) 2 = Some sibling ∧
  ∃ unfoldLines effects,
    computeUnfoldLines (buildHeaders scenario) sibling = Some unfoldLines ∧
    effects = foldEffects docLineFrom foldable () (buildHeaders scenario) unfoldLines ∧
    editorCallback docLineFrom foldable FocusOnNextHeader editor =
      Some [ Dispatch effects; ScrollTo 5; SetCursor 4 0 ] ∧
    (line cur ∉ unfoldLines) ∧
    (∀ range, foldable () (docLineFrom () 3) = Some range → foldEffect range ∈ effects).
Proof.
  intros editor cur sibling docLineFrom foldable.
  assert (findCurrentIndex (buildHeaders scenario) 2 = Some 2) as Hi
    by (vm_compute; reflexivity).
  assert (buildHeaders scenario !! 2 = Some cur) as Hcur
    by (vm_compute; reflexivity).
  assert (findNextSibling (buildHeaders scenario) 2 = Some sibling) as Hs
    by (vm_compute; reflexivity).
  split_and!; [exact Hi | exact Hcur | exact Hs |].
  exact (C10_sibling_move_folds_previous_heading docLineFrom foldable
           FocusOnNextHeader editor 2 cur sibling Hi Hcur
           (or_introl (conj eq_refl Hs))).
Defined.

Lemma C8_witness :
  let editor := mkEditor preambleDoc 0 0 () in
  let docLineFrom := λ (_ : ()) (n : nat), n in
  let foldable := λ (_ : ()) (pos : nat), Some (mkRange pos (pos + 1)) in
  noTarget FocusOnCurrentHeader preambleDoc 0 ∧
  ∃ calls,
    editorCallback docLineFrom foldable FocusOnCurrentHeader editor = Some calls ∧
    calls = [] ∧
    run () (λ _ _, None) (λ v _, v) (λ v _, v) calls editor = editor.
Proof.
  intros editor docLineFrom foldable.
  assert (noTarget FocusOnCurrentHeader preambleDoc 0) as Hno.
  { left. intros h Hh.
    assert (buildHeaders preambleDoc = [mkHeaderNode 1 1 None]) as E
      by (vm_compute; reflexivity).
    rewrite E in Hh. apply list_elem_of_singleton in Hh. subst h. simpl. lia. }
  split; [exact Hno |].
  exact (C8_no_target_no_effect () docLineFrom foldable (λ _ _, None)
           (λ v _, v) (λ v _, v) FocusOnCurrentHeader editor Hno).
Defined.

(** * Further properties of the code *)

(** ** The pattern, at its edges *)

(** X1: [/^(#+)\s/] accepts a run of [#] of any length followed by a
    white-space character (levels are not capped), and rejects a line that
    is empty, that starts with another character (an indented [#] too), or
    that is a run of [#] up to the end of the line. *)
Theorem X1_pattern_edges (k : nat) (c : N) (rest : jsstring) :
  (0 < k → isWhiteSpace c = true →
   matchHeader (replicate k HASH ++ c :: rest) = Some k) ∧
  matchHeader [] = None ∧
  (c ≠ HASH → matchHeader (c :: rest) = None) ∧
  matchHeader (replicate k HASH) = None.
Proof.
  split_and!.
  - intros Hk Hw. apply matchHeader_Some.
    assert (hashRun (replicate k HASH ++ c :: rest) = k) as ->.
    { apply hashRun_replicate. simpl. intros [= ->]. by rewrite hash_not_white in Hw. }
    split_and!; [done | done |]. exists c. split; [| done].
    by rewrite lookup_app_r, length_replicate, Nat.sub_diag
      by (rewrite length_replicate; lia).
  - reflexivity.
  - intros Hc. unfold matchHeader. simpl.
    destruct (N.eqb_spec c HASH); [done | reflexivity].
  - destruct (matchHeader (replicate k HASH)) as [r |] eqn:Hm; [exfalso | done].
    apply matchHeader_Some in Hm as (Hr & _ & c' & Hc' & _).
    assert (hashRun (replicate k HASH) = k) as Hrun.
    { rewrite <- (app_nil_r (replicate k HASH)). by apply hashRun_replicate. }
    apply lookup_lt_Some in Hc'. rewrite length_replicate in Hc'. lia.
Qed.

(** ** The header list, beyond the parent rule *)

Section Order.
Context (hs : list HeaderNode) (T : TreeShaped hs).

Lemma ts_index_lt j k a b :
  hs !! j = Some a → hs !! k = Some b → line a < line b → j < k.
Proof using T.
  intros Ha Hb Hab.
  destruct (Nat.lt_trichotomy j k) as [H | [-> | H]]; [done | |].
  - assert (a = b) as -> by congruence. lia.
  - pose proof (ts_sorted hs T k j b a Hb Ha H). lia.
Qed.

(** The nodes before position [k] are the nodes of smaller line. *)
Lemma ts_earlier k n m :
  hs !! k = Some n →
  (m ∈ hs ∧ line m < line n) ↔ ∃ j, j < k ∧ hs !! j = Some m.
Proof using T.
  intros Hn. split.
  - intros [[j Hm]%list_elem_of_lookup Hlt]. exists j.
    split; [by eapply ts_index_lt | done].
  - intros (j & Hj & Hm). split; [by eapply list_elem_of_lookup_2 |].
    by eapply (ts_sorted hs T j k).
Qed.

Lemma ts_index_le_line k n : hs !! k = Some n → k ≤ line n.
Proof using T.
  revert n. induction k as [| k IH]; intros n Hn; [lia |].
  destruct (lookup_lt_is_Some_2 hs k) as [a Ha].
  { apply lookup_lt_Some in Hn. lia. }
  pose proof (IH a Ha). pose proof (ts_sorted hs T k (S k) a n Ha Hn). lia.
Qed.

(** Climbing by steps of at most one from below [l] to [l] or above passes
    through [l]. *)
Lemma noLevelSkip_through l j : ∀ d a b,
  noLevelSkip hs →
  hs !! j = Some a → hs !! (j + S d) = Some b →
  level a < l ≤ level b →
  ∃ i x, j < i ≤ j + S d ∧ hs !! i = Some x ∧ level x = l.
Proof.
  induction d as [| d IH]; intros a b Hskip Ha Hb Hl.
  - replace (j + 1) with (S j) in * by lia.
    pose proof (Hskip j a b Ha Hb).
    exists (S j), b. split_and!; first [done | lia].
  - destruct (lookup_lt_is_Some_2 hs (j + S d)) as [y Hy].
    { apply lookup_lt_Some in Hb. lia. }
    destruct (decide (l ≤ level y)) as [Hle | Hgt].
    + destruct (IH a y Hskip Ha Hy) as (i & x & Hi & Hx & Hlx); [lia |].
      exists i, x. split_and!; first [done | lia].
    + replace (j + S (S d)) with (S (j + S d)) in * by lia.
      pose proof (Hskip (j + S d) y b Hy Hb).
      exists (S (j + S d)), b. split_and!; first [done | lia].
Qed.

End Order.

(** X2: a node of the header list has no parent exactly when no heading on
    an earlier line has a smaller level. *)
Theorem X2_no_parent_iff_nothing_shallower_before (text : jsstring) (n : HeaderNode) :
  n ∈ buildHeaders text →
  parent n = None ↔
  ∀ m, m ∈ buildHeaders text → line m < line n → level n ≤ level m.
Proof.
  intros [k Hn]%list_elem_of_lookup.
  pose proof (buildHeaders_tree text) as T.
  rewrite (buildHeaders_parent_None text k n Hn). split.
  - intros H m Hm Hlt.
    destruct (proj1 (ts_earlier _ T k n m Hn) (conj Hm Hlt)) as (j & Hj & Hjm).
    by apply (H j).
  - intros H j m Hj Hm.
    destruct (proj2 (ts_earlier _ T k n m Hn)) as [Hin Hlt]; [eauto |].
    by apply H.
Qed.

Lemma X2_witness :
  let n := mkHeaderNode 1 1 None in
  n ∈ buildHeaders staleDoc ∧
  (parent n = None ↔
   ∀ m, m ∈ buildHeaders staleDoc → line m < line n → level n ≤ level m).
Proof.
  intros n.
  assert (n ∈ buildHeaders staleDoc) as Hn.
  { apply (list_elem_of_lookup_2 _ 1). vm_compute. reflexivity. }
  split; [exact Hn |].
  exact (X2_no_parent_iff_nothing_shallower_before staleDoc n Hn).
Defined.

(** X3: the parent rule as the code has it.  [p] is the parent of [n]
    exactly when [p] is a heading on an earlier line, of smaller level, no
    earlier heading has a level strictly between the two, and no heading
    between [p] and [n] has the level of [p]: the latest heading of the
    greatest level below that of [n] met so far. *)
Theorem X3_parent_is_latest_of_greatest_lower_level
    (text : jsstring) (n p : HeaderNode) :
  n ∈ buildHeaders text →
  parent n = Some p ↔
  p ∈ buildHeaders text ∧ line p < line n ∧ level p < level n ∧
  (∀ m, m ∈ buildHeaders text → line m < line n →
        ¬ (level p < level m < level n)) ∧
  (∀ m, m ∈ buildHeaders text → line p < line m < line n →
        level m ≠ level p).
Proof.
  intros [k Hn]%list_elem_of_lookup.
  pose proof (buildHeaders_tree text) as T.
  assert (∀ q, parent n = Some q →
    q ∈ buildHeaders text ∧ line q < line n ∧ level q < level n ∧
    (∀ m, m ∈ buildHeaders text → line m < line n →
          ¬ (level q < level m < level n)) ∧
    (∀ m, m ∈ buildHeaders text → line q < line m < line n →
          level m ≠ level q)) as Hfwd.
  { intros q Hq.
    destruct (buildHeaders_parent_Some text k n q Hn Hq)
      as (j & Hjk & Hj & Hlvl & Hlast & Hgap).
    destruct (proj2 (ts_earlier _ T k n q Hn)) as [Hin Hlt]; [eauto |].
    split_and!; [done | done | done | |].
    - intros m Hm Hml.
      destruct (proj1 (ts_earlier _ T k n m Hn) (conj Hm Hml)) as (j' & Hj' & Hjm).
      by apply (Hgap j' m).
    - intros m [j' Hjm]%list_elem_of_lookup [Hpm Hmn].
      apply (Hlast j' m); [| done]. split.
      + by apply (ts_index_lt _ T j j' q m).
      + by apply (ts_index_lt _ T j' k m n). }
  split; [apply Hfwd |].
  intros (Hp & Hpn & Hlvl & Hgap & Hlast).
  destruct (parent n) as [q |] eqn:Hq.
  - destruct (Hfwd q eq_refl) as (Hq' & Hqn & Hqlvl & Hqgap & Hqlast).
    f_equal.
    assert (level q = level p) as Hsame.
    { specialize (Hgap q Hq' Hqn). specialize (Hqgap p Hp Hpn). lia. }
    destruct (Nat.lt_trichotomy (line q) (line p)) as [H | [H | H]].
    + exfalso. apply (Hqlast p Hp); [lia | done].
    + by apply (ts_line_inj _ T).
    + exfalso. apply (Hlast q Hq'); [lia | done].
  - exfalso.
    destruct (proj1 (ts_earlier _ T k n p Hn) (conj Hp Hpn)) as (j & Hj & Hjp).
    pose proof (proj1 (buildHeaders_parent_None text k n Hn) Hq j p Hj Hjp). lia.
Qed.

Lemma X3_witness :
  let n := mkHeaderNode 2 3 (Some (mkHeaderNode 0 2 None)) in
  let p := mkHeaderNode 0 2 None in
  n ∈ buildHeaders staleDoc ∧
  (parent n = Some p ↔
   p ∈ buildHeaders staleDoc ∧ line p < line n ∧ level p < level n ∧
   (∀ m, m ∈ buildHeaders staleDoc → line m < line n →
         ¬ (level p < level m < level n)) ∧
   (∀ m, m ∈ buildHeaders staleDoc → line p < line m < line n →
         level m ≠ level p)).
Proof.
  intros n p.
  assert (n ∈ buildHeaders staleDoc) as Hn.
  { apply (list_elem_of_lookup_2 _ 2). vm_compute. reflexivity. }
  split; [exact Hn |].
  exact (X3_parent_is_latest_of_greatest_lower_level staleDoc n p Hn).
Defined.

(** X4: in a document where no heading is more than one level deeper than
    the heading before it, the parent of a node is the closest preceding
    heading of strictly smaller level. *)
Theorem X4_parent_is_closest_without_level_skip
    (text : jsstring) (n p : HeaderNode) :
  noLevelSkip (buildHeaders text) →
  n ∈ buildHeaders text → parent n = Some p →
  p ∈ buildHeaders text ∧ line p < line n ∧ level p < level n ∧
  ∀ m, m ∈ buildHeaders text → line m < line n → level m < level n →
       line m ≤ line p.
Proof.
  intros Hskip [k Hn]%list_elem_of_lookup Hp.
  pose proof (buildHeaders_tree text) as T.
  destruct (buildHeaders_parent_Some text k n p Hn Hp)
    as (j & Hjk & Hj & Hlvl & Hlast & Hgap).
  destruct (proj2 (ts_earlier _ T k n p Hn)) as [Hin Hlt]; [eauto |].
  split_and!; [done | done | done |].
  intros m Hm Hmn Hml.
  destruct (decide (line m ≤ line p)) as [| Hafter]; [done | exfalso].
  destruct (proj1 (ts_earlier _ T k n m Hn) (conj Hm Hmn)) as (j' & Hj' & Hjm).
  assert (j < j') as Hjj by (apply (ts_index_lt _ T j j' p m); [done | done | lia]).
  pose proof (Hlast j' m ltac:(lia) Hjm) as Hne.
  pose proof (Hgap j' m Hj' Hjm) as Hout.
  assert (level m < level p) as Hbelow by lia.
  destruct (noLevelSkip_through _ (level p) j' (k - j' - 1) m n Hskip Hjm)
    as (i & x & Hi & Hx & Hlx).
  { by replace (j' + S (k - j' - 1)) with k by lia. }
  { lia. }
  destruct (decide (i = k)) as [-> | Hik].
  - assert (x = n) as -> by congruence. lia.
  - apply (Hlast i x); [lia | done | done].
Qed.

Lemma scenario_noLevelSkip : noLevelSkip (buildHeaders scenario).
Proof.
  assert (level <$> buildHeaders scenario = [1; 2; 2; 3; 2]) as E
    by (vm_compute; reflexivity).
  intros k a b Ha Hb.
  assert ((level <$> buildHeaders scenario) !! k = Some (level a)) as Ha'
    by by rewrite list_lookup_fmap, Ha.
  assert ((level <$> buildHeaders scenario) !! S k = Some (level b)) as Hb'
    by by rewrite list_lookup_fmap, Hb.
  rewrite E in Ha', Hb'.
  do 5 (destruct k as [| k]; [simpl in *; simplify_eq; try lia |]).
  simpl in *. done.
Qed.

Lemma X4_witness :
  let n := mkHeaderNode 4 2 (Some (mkHeaderNode 0 1 None)) in
  let p := mkHeaderNode 0 1 None in
  noLevelSkip (buildHeaders scenario) ∧ n ∈ buildHeaders scenario ∧
  parent n = Some p ∧
  (p ∈ buildHeaders scenario ∧ line p < line n ∧ level p < level n ∧
   ∀ m, m ∈ buildHeaders scenario → line m < line n → level m < level n →
        line m ≤ line p).
Proof.
  intros n p.
  assert (n ∈ buildHeaders scenario) as Hn.
  { apply (list_elem_of_lookup_2 _ 4). vm_compute. reflexivity. }
  split; [exact scenario_noLevelSkip |]. split; [exact Hn |].
  split; [reflexivity |].
  exact (X4_parent_is_closest_without_level_skip scenario n p
           scenario_noLevelSkip Hn eq_refl).
Defined.

(** X5: every node of the header list sits on a line of the text and has a
    level of at least one, and the list is no longer than the text has
    lines; so [state.doc.line(header.line + 1)] is asked for a line number
    between 1 and the number of lines. *)
Theorem X5_nodes_within_the_text (text : jsstring) :
  length (buildHeaders text) ≤ length (split text) ∧
  ∀ n, n ∈ buildHeaders text →
       1 ≤ line n + 1 ≤ length (split text) ∧ 1 ≤ level n.
Proof.
  pose proof (buildHeaders_inv text) as Hinv.
  pose proof (buildHeaders_tree text) as T.
  assert (∀ n, n ∈ buildHeaders text → line n < length (split text)) as Hline.
  { intros n Hn. apply (inv_lines _ _ Hinv n Hn). }
  split.
  - destruct (decide (length (buildHeaders text) = 0)) as [-> | Hne]; [lia |].
    destruct (lookup_lt_is_Some_2 (buildHeaders text)
                (length (buildHeaders text) - 1)) as [n Hn]; [lia |].
    pose proof (ts_index_le_line _ T _ n Hn).
    pose proof (Hline n (list_elem_of_lookup_2 _ _ _ Hn)). lia.
  - intros n Hn. pose proof (Hline n Hn).
    apply list_elem_of_lookup in Hn as [k Hk].
    destruct (buildHeaders_parent text k n Hk) as [Hpos _]. lia.
Qed.

(** ** Text added below *)

Lemma split_nonempty s : split s ≠ [].
Proof.
  destruct s as [| c s]; simpl; [done |].
  destruct (c =? LF)%N; [done |]. by destruct (split s).
Qed.

Lemma split_app_LF a b : split (a ++ LF :: b) = split a ++ split b.
Proof.
  induction a as [| c a IH]; simpl; [done |].
  destruct (c =? LF)%N; [by rewrite IH |].
  rewrite IH. pose proof (split_nonempty a). by destruct (split a).
Qed.

Lemma parseLoop_app l1 : ∀ l2 i st,
  parseLoop i (l1 ++ l2) st = parseLoop (i + length l1) l2 (parseLoop i l1 st).
Proof.
  induction l1 as [| ln l1 IH]; intros l2 i st; simpl.
  - by rewrite Nat.add_0_r.
  - rewrite IH. f_equal. lia.
Qed.

Lemma parseLoop_headers_prefix lines : ∀ i st,
  headers st `prefix_of` headers (parseLoop i lines st).
Proof.
  induction lines as [| ln lines IH]; intros i st; simpl; [done |].
  etrans; [| apply IH]. unfold parseLine.
  destruct (matchHeader ln); simpl; [by apply prefix_app_r | done].
Qed.

(** X6: the nodes built for a text (their lines, levels and parents) are
    the first nodes built for that text followed by a line break and more
    text: what is written below does not change the tree above. *)
Theorem X6_text_below_keeps_the_nodes_above (a b : jsstring) :
  buildHeaders a `prefix_of` buildHeaders (a ++ LF :: b).
Proof.
  unfold buildHeaders, parseLines.
  rewrite split_app_LF, parseLoop_app. apply parseLoop_headers_prefix.
Qed.

(** ** The table of latest nodes *)

(** X7: when the loop ends, [lastByLevel[l]] is the node of level [l] on the
    greatest line, and it is unset exactly when no heading has level [l]. *)
Theorem X7_lastByLevel_holds_latest_node_of_level
    (text : jsstring) (l : nat) :
  (∀ p, lastByLevel (parseLines (split text)) !! l = Some p ↔
        p ∈ buildHeaders text ∧ level p = l ∧
        ∀ m, m ∈ buildHeaders text → level m = l → line m ≤ line p) ∧
  (lastByLevel (parseLines (split text)) !! l = None ↔
   ∀ m, m ∈ buildHeaders text → level m ≠ l).
Proof.
  pose proof (buildHeaders_inv text) as Hinv.
  pose proof (buildHeaders_tree text) as T.
  rewrite (inv_last _ _ Hinv l). fold (buildHeaders text).
  split; [| apply lastWith_None].
  assert (∀ q, lastWith (buildHeaders text) l = Some q →
    q ∈ buildHeaders text ∧ level q = l ∧
    ∀ m, m ∈ buildHeaders text → level m = l → line m ≤ line q) as Hfwd.
  { intros q (j & Hj & Hl & Hlast)%lastWith_Some.
    split_and!; [by eapply list_elem_of_lookup_2 | done |].
    intros m [j' Hm]%list_elem_of_lookup Hml.
    destruct (Nat.lt_trichotomy j' j) as [H | [-> | H]].
    - pose proof (ts_sorted _ T j' j m q Hm Hj H). lia.
    - assert (m = q) as -> by congruence. lia.
    - by destruct (Hlast j' m H Hm). }
  intros p. split; [apply Hfwd |].
  intros (Hp & Hl & Hmax).
  destruct (lastWith (buildHeaders text) l) as [q |] eqn:Hq.
  - destruct (Hfwd q eq_refl) as (Hq' & Hql & Hqmax). f_equal.
    apply (ts_line_inj _ T); [done | done |].
    specialize (Hmax q Hq' Hql). specialize (Hqmax p Hp Hl). lia.
  - rewrite lastWith_None in Hq. by destruct (Hq p Hp).
Qed.

(** ** Along the parent links *)

(** X8: every node reached from a node of the list by parent links is a
    node of the list, on an earlier line and of smaller level; read
    downwards, the nodes below a heading come after it and are deeper. *)
Theorem X8_ancestors_come_earlier_and_shallower
    (text : jsstring) (n a : HeaderNode) :
  n ∈ buildHeaders text → ancestorOf a n →
  a ∈ buildHeaders text ∧ line a < line n ∧ level a < level n.
Proof.
  intros [k Hn]%list_elem_of_lookup Ha.
  pose proof (buildHeaders_tree text) as T.
  destruct (ts_ancestor _ T k n a Hn Ha) as (j & Hjk & Hj & Hlvl).
  split_and!; [by eapply list_elem_of_lookup_2 | | done].
  by apply (ts_sorted _ T j k).
Qed.

Lemma X8_witness :
  let a := mkHeaderNode 0 1 None in
  let n := mkHeaderNode 3 3 (Some (mkHeaderNode 2 2 (Some a))) in
  n ∈ buildHeaders scenario ∧ ancestorOf a n ∧
  (a ∈ buildHeaders scenario ∧ line a < line n ∧ level a < level n).
Proof.
  intros a n.
  assert (n ∈ buildHeaders scenario) as Hn.
  { apply (list_elem_of_lookup_2 _ 3). vm_compute. reflexivity. }
  assert (ancestorOf a n) as Ha by (simpl; right; left; reflexivity).
  split; [exact Hn |]. split; [exact Ha |].
  exact (X8_ancestors_come_earlier_and_shallower scenario n a Hn Ha).
Defined.

Lemma depth_parent n p : parent n = Some p → depth n = S (depth p).
Proof. destruct n as [l v [q |]]; simpl; [by intros [= ->] | done]. Qed.

(** X9: a node of the header list has fewer parent links above it than its
    level: the walk up the ancestors of a heading of level [L] visits at
    most [L] nodes. *)
Theorem X9_depth_below_level (text : jsstring) (n : HeaderNode) :
  n ∈ buildHeaders text → depth n < level n.
Proof.
  intros [k Hn]%list_elem_of_lookup.
  pose proof (buildHeaders_tree text) as T.
  revert n Hn. induction k as [k IH] using lt_wf_ind. intros n Hn.
  destruct (parent n) as [p |] eqn:Hp.
  - destruct (ts_parent _ T k n p Hn Hp) as (j & Hjk & Hj & Hlvl).
    rewrite (depth_parent n p Hp). pose proof (IH j Hjk p Hj). lia.
  - destruct (buildHeaders_parent text k n Hn) as [Hpos _].
    destruct n as [l v [q |]]; simplify_eq/=. lia.
Qed.

Lemma X9_witness :
  let n := mkHeaderNode 3 3 (Some (mkHeaderNode 2 2 (Some (mkHeaderNode 0 1 None)))) in
  n ∈ buildHeaders scenario ∧ depth n < level n.
Proof.
  intros n.
  assert (n ∈ buildHeaders scenario) as Hn.
  { apply (list_elem_of_lookup_2 _ 3). vm_compute. reflexivity. }
  split; [exact Hn |].
  exact (X9_depth_below_level scenario n Hn).
Defined.

(** ** The locator, section by section *)

Lemma locate_in_section text i h c :
  buildHeaders text !! i = Some h → line h ≤ c →
  (∀ m, buildHeaders text !! S i = Some m → c < line m) →
  findCurrentIndex (buildHeaders text) c = Some i.
Proof.
  intros Hh Hle Hnext. pose proof (buildHeaders_tree text) as T.
  apply findCurrentIndexFrom_Some; [done |].
  split_and!; [by eapply lookup_lt_Some | eauto |].
  intros k m Hk Hm.
  destruct (lookup_lt_is_Some_2 (buildHeaders text) (S i)) as [m' Hm']; [lia |].
  specialize (Hnext m' Hm').
  destruct (decide (k = S i)) as [-> | Hne].
  - assert (m = m') as -> by congruence. done.
  - pose proof (ts_sorted _ T (S i) k m' m Hm' Hm ltac:(lia)). lia.
Qed.

Lemma locate_on_heading text i h :
  buildHeaders text !! i = Some h →
  findCurrentIndex (buildHeaders text) (line h) = Some i.
Proof.
  intros Hh. apply (locate_in_section text i h); [done | lia |].
  intros m Hm. apply (buildHeaders_sorted text i (S i) h m); [done | done | lia].
Qed.

(** X10: with the cursor on the line of a heading, or on any line below it
    and above the next heading, both locator loops answer that heading (the
    first its node, the second its position). *)
Theorem X10_cursor_inside_a_section
    (text : jsstring) (i : nat) (h : HeaderNode) (c : nat) :
  buildHeaders text !! i = Some h → line h ≤ c →
  (∀ m, buildHeaders text !! S i = Some m → c < line m) →
  findCurrentIndex (buildHeaders text) c = Some i ∧
  findCurrentHeader (buildHeaders text) c = Some h.
Proof.
  intros Hh Hle Hnext.
  pose proof (locate_in_section text i h c Hh Hle Hnext) as Hi.
  split; [done |]. by rewrite findCurrentHeader_index, Hi.
Qed.

Lemma X10_witness :
  let h := mkHeaderNode 1 1 None in
  buildHeaders preambleDoc !! 0 = Some h ∧ line h ≤ 2 ∧
  (∀ m, buildHeaders preambleDoc !! 1 = Some m → 2 < line m) ∧
  (findCurrentIndex (buildHeaders preambleDoc) 2 = Some 0 ∧
   findCurrentHeader (buildHeaders preambleDoc) 2 = Some h).
Proof.
  intros h.
  assert (buildHeaders preambleDoc !! 0 = Some h) as Hh
    by (vm_compute; reflexivity).
  assert (line h ≤ 2) as Hle by (simpl; lia).
  assert (∀ m, buildHeaders preambleDoc !! 1 = Some m → 2 < line m) as Hnext.
  { intros m Hm. vm_compute in Hm. discriminate. }
  split; [exact Hh |]. split; [exact Hle |]. split; [exact Hnext |].
  exact (X10_cursor_inside_a_section preambleDoc 0 h 2 Hh Hle Hnext).
Defined.

(** ** Going to a sibling and back *)

(** The two scans undo each other. *)
Lemma scans_inverse hs i j cur s :
  hs !! i = Some cur → hs !! j = Some s → i < j →
  isSibling (level cur) (parent cur) s →
  (∀ k m, i < k < j → hs !! k = Some m → level cur < level m) →
  findNextSibling hs i = Some s ∧ findPreviousSibling hs j = Some cur.
Proof.
  intros Hcur Hs Hij [Hl Hp] Hdeep. split.
  - apply (findNextSibling_Some hs i cur s Hcur). exists j. done.
  - apply (findPreviousSibling_Some hs j s cur Hs). exists i.
    split_and!; [done | done | done |].
    intros k m Hk Hm. rewrite Hl. by apply (Hdeep k m).
Qed.

Lemma findNextSibling_inverse text i cur s :
  buildHeaders text !! i = Some cur →
  findNextSibling (buildHeaders text) i = Some s →
  ∃ j, i < j ∧ buildHeaders text !! j = Some s ∧
       findPreviousSibling (buildHeaders text) j = Some cur.
Proof.
  intros Hcur Hs.
  apply (findNextSibling_Some _ i cur s Hcur) in Hs as (j & Hij & Hj & Hsib & Hdeep).
  exists j. split_and!; [done | done |].
  by apply (scans_inverse _ i j cur s).
Qed.

Lemma findPreviousSibling_inverse text i cur s :
  buildHeaders text !! i = Some cur →
  findPreviousSibling (buildHeaders text) i = Some s →
  ∃ j, j < i ∧ buildHeaders text !! j = Some s ∧
       findNextSibling (buildHeaders text) j = Some cur.
Proof.
  intros Hcur Hs.
  apply (findPreviousSibling_Some _ i cur s Hcur) in Hs
    as (j & Hij & Hj & [Hl Hp] & Hdeep).
  exists j. split_and!; [done | done |].
  apply (scans_inverse _ j i s cur); [done | done | done | done |].
  intros k m Hk Hm. rewrite Hl. by apply (Hdeep k m).
Qed.

Section Navigation.
Context {View Px : Type}.
Variable zeroPx : Px.
Variable docLineFrom : View → nat → nat.
Variable foldable : View → nat → option Range.
Variable coordsAtPosTop : View → nat → option Px.
Variable dispatch : View → list StateEffect → View.
Variable setScrollTop : View → Px → View.

Local Abbreviation callback := (editorCallback docLineFrom foldable).
Local Abbreviation runCalls := (run zeroPx coordsAtPosTop dispatch setScrollTop).
Local Abbreviation onSibling := (focusOnSibling docLineFrom foldable).

Lemma run_value calls : ∀ editor, value (runCalls calls editor) = value editor.
Proof.
  unfold run. induction calls as [| c calls IH]; intros editor; simpl; [done |].
  rewrite IH. by destruct c.
Qed.

(** A sibling command that finds a sibling: its calls, and the text and the
    cursor after them. *)
Lemma focusOnSibling_found find (editor : Editor View) i s :
  findCurrentIndex (buildHeaders (value editor)) (cursorLine editor) = Some i →
  find (buildHeaders (value editor)) i = Some s →
  s ∈ buildHeaders (value editor) →
  ∃ lines calls,
    computeUnfoldLines (buildHeaders (value editor)) s = Some lines ∧
    onSibling find editor = Some calls ∧
    calls = [ Dispatch (foldEffects docLineFrom foldable (cm editor)
                          (buildHeaders (value editor)) lines);
              ScrollTo (docLineFrom (cm editor) (line s + 1));
              SetCursor (line s) 0 ] ∧
    value (runCalls calls editor) = value editor ∧
    cursorLine (runCalls calls editor) = line s ∧
    cursorCh (runCalls calls editor) = 0.
Proof.
  intros Hi Hs Hin.
  destruct (computeUnfoldLines_spec _ (buildHeaders_tree (value editor)) s Hin)
    as (lines & Hrun & _).
  eexists lines, _. split; [done |]. split_and!; [| reflexivity | done | done | done].
  unfold focusOnSibling. by rewrite Hi, Hs, Hrun.
Qed.

(** X11: Focus on Next Header followed by Focus on Previous Header brings
    the cursor back to the heading it started from, at column 0, and leaves
    the text as it was. *)
Theorem X11_next_then_previous_returns
    (editor : Editor View) (i : nat) (cur s : HeaderNode) :
  findCurrentIndex (buildHeaders (value editor)) (cursorLine editor) = Some i →
  buildHeaders (value editor) !! i = Some cur →
  findNextSibling (buildHeaders (value editor)) i = Some s →
  ∃ calls1 calls2,
    callback FocusOnNextHeader editor = Some calls1 ∧
    callback FocusOnPreviousHeader (runCalls calls1 editor) = Some calls2 ∧
    value (runCalls calls2 (runCalls calls1 editor)) = value editor ∧
    cursorLine (runCalls calls2 (runCalls calls1 editor)) = line cur ∧
    cursorCh (runCalls calls2 (runCalls calls1 editor)) = 0.
Proof.
  intros Hi Hcur Hs.
  destruct (findNextSibling_inverse _ i cur s Hcur Hs) as (j & Hij & Hj & Hback).
  destruct (focusOnSibling_found findNextSibling editor i s Hi Hs)
    as (lines1 & calls1 & _ & Hc1 & _ & Hv1 & Hl1 & _).
  { by eapply list_elem_of_lookup_2. }
  set (editor1 := runCalls calls1 editor) in *.
  destruct (focusOnSibling_found findPreviousSibling editor1 j cur)
    as (lines2 & calls2 & _ & Hc2 & _ & Hv2 & Hl2 & Hch2).
  { rewrite Hv1, Hl1. by apply locate_on_heading. }
  { by rewrite Hv1. }
  { rewrite Hv1. by eapply list_elem_of_lookup_2. }
  exists calls1, calls2. simpl. fold editor1.
  split_and!; [done | done | congruence | done | done].
Qed.

(** X12: Focus on Previous Header followed by Focus on Next Header brings
    the cursor back to the heading it started from, at column 0, and leaves
    the text as it was. *)
Theorem X12_previous_then_next_returns
    (editor : Editor View) (i : nat) (cur s : HeaderNode) :
  findCurrentIndex (buildHeaders (value editor)) (cursorLine editor) = Some i →
  buildHeaders (value editor) !! i = Some cur →
  findPreviousSibling (buildHeaders (value editor)) i = Some s →
  ∃ calls1 calls2,
    callback FocusOnPreviousHeader editor = Some calls1 ∧
    callback FocusOnNextHeader (runCalls calls1 editor) = Some calls2 ∧
    value (runCalls calls2 (runCalls calls1 editor)) = value editor ∧
    cursorLine (runCalls calls2 (runCalls calls1 editor)) = line cur ∧
    cursorCh (runCalls calls2 (runCalls calls1 editor)) = 0.
Proof.
  intros Hi Hcur Hs.
  destruct (findPreviousSibling_inverse _ i cur s Hcur Hs) as (j & Hij & Hj & Hback).
  destruct (focusOnSibling_found findPreviousSibling editor i s Hi Hs)
    as (lines1 & calls1 & _ & Hc1 & _ & Hv1 & Hl1 & _).
  { by eapply list_elem_of_lookup_2. }
  set (editor1 := runCalls calls1 editor) in *.
  destruct (focusOnSibling_found findNextSibling editor1 j cur)
    as (lines2 & calls2 & _ & Hc2 & _ & Hv2 & Hl2 & Hch2).
  { rewrite Hv1, Hl1. by apply locate_on_heading. }
  { by rewrite Hv1. }
  { rewrite Hv1. by eapply list_elem_of_lookup_2. }
  exists calls1, calls2. simpl. fold editor1.
  split_and!; [done | done | congruence | done | done].
Qed.

(** X13: a sibling command that finds a sibling moves the cursor to column 0
    of a line strictly below the cursor line (Next) or strictly above it
    (Previous). *)
Theorem X13_sibling_moves_cursor_strictly
    (editor : Editor View) (i : nat) (s : HeaderNode) :
  findCurrentIndex (buildHeaders (value editor)) (cursorLine editor) = Some i →
  (findNextSibling (buildHeaders (value editor)) i = Some s →
   ∃ calls, callback FocusOnNextHeader editor = Some calls ∧
            cursorLine editor < cursorLine (runCalls calls editor) ∧
            cursorCh (runCalls calls editor) = 0) ∧
  (findPreviousSibling (buildHeaders (value editor)) i = Some s →
   ∃ calls, callback FocusOnPreviousHeader editor = Some calls ∧
            cursorLine (runCalls calls editor) < cursorLine editor ∧
            cursorCh (runCalls calls editor) = 0).
Proof.
  intros Hi. pose proof (buildHeaders_tree (value editor)) as T.
  pose proof Hi as Hloc.
  apply findCurrentIndexFrom_Some in Hloc as (_ & (cur & Hcur & Hle) & Hafter);
    [| done].
  split; intros Hs.
  - pose proof Hs as Hs'.
    apply (findNextSibling_Some _ i cur s Hcur) in Hs' as (j & Hij & Hj & _).
    destruct (focusOnSibling_found findNextSibling editor i s Hi Hs)
      as (lines & calls & _ & Hc & _ & _ & Hl & Hch).
    { by eapply list_elem_of_lookup_2. }
    exists calls. split_and!; [done | | done]. rewrite Hl.
    apply (Hafter j s); [| done]. split; [done |]. by eapply lookup_lt_Some.
  - pose proof Hs as Hs'.
    apply (findPreviousSibling_Some _ i cur s Hcur) in Hs' as (j & Hij & Hj & _).
    destruct (focusOnSibling_found findPreviousSibling editor i s Hi Hs)
      as (lines & calls & _ & Hc & _ & _ & Hl & Hch).
    { by eapply list_elem_of_lookup_2. }
    exists calls. split_and!; [done | | done]. rewrite Hl.
    pose proof (ts_sorted _ T j i s cur Hj Hcur Hij). lia.
Qed.

(** X14: after a sibling command has found a sibling, Focus on Current
    Header computes the unfold set that the sibling command has just used. *)
Theorem X14_focus_current_agrees_after_sibling_move
    (c : Command) (editor : Editor View) (i : nat) (s : HeaderNode) :
  findCurrentIndex (buildHeaders (value editor)) (cursorLine editor) = Some i →
  (c = FocusOnNextHeader ∧
     findNextSibling (buildHeaders (value editor)) i = Some s) ∨
  (c = FocusOnPreviousHeader ∧
     findPreviousSibling (buildHeaders (value editor)) i = Some s) →
  ∃ calls lines,
    callback c editor = Some calls ∧
    computeUnfoldLines (buildHeaders (value editor)) s = Some lines ∧
    currentUnfoldLines (runCalls calls editor) = Some lines.
Proof.
  intros Hi Hfound.
  assert (FocusNode (value editor) (cursorLine editor) s) as Hfocus.
  { destruct Hfound as [[_ Hs] | [_ Hs]];
      [by eapply focus_next | by eapply focus_previous]. }
  pose proof (FocusNode_elem _ _ _ Hfocus) as Hin.
  pose proof Hin as [j Hj]%list_elem_of_lookup.
  assert (∃ find, callback c editor = onSibling find editor ∧
                  find (buildHeaders (value editor)) i = Some s)
    as (find & Hcb & Hs).
  { destruct Hfound as [[-> Hs] | [-> Hs]]; eauto. }
  destruct (focusOnSibling_found find editor i s Hi Hs Hin)
    as (lines & calls & Hrun & Hc & _ & Hv & Hl & _).
  exists calls, lines. split_and!; [congruence | done |].
  unfold currentUnfoldLines. rewrite Hv, Hl.
  rewrite findCurrentHeader_index, (locate_on_heading _ j s Hj). simpl.
  by rewrite Hj.
Qed.

End Navigation.

Lemma X11_witness :
  let editor := mkEditor scenario 2 0 () in
  let cur := mkHeaderNode 2 2 (Some (mkHeaderNode 0 1 None)) in
  let s := mkHeaderNode 4 2 (Some (mkHeaderNode 0 1 None)) in
  let callback := editorCallback (λ (_ : ()) (n : nat), n) (λ _ _, None) in
  let runCalls := run () (λ _ _, None) (λ v _, v) (λ v _, v) in
  findCurrentIndex (buildHeaders scenario) 2 = Some 2 ∧
  buildHeaders scenario !! 2 = Some cur ∧
  findNextSibling (buildHeaders scenario) 2 = Some s ∧
  ∃ calls1 calls2,
    callback FocusOnNextHeader editor = Some calls1 ∧
    callback FocusOnPreviousHeader (runCalls calls1 editor) = Some calls2 ∧
    value (runCalls calls2 (runCalls calls1 editor)) = scenario ∧
    cursorLine (runCalls calls2 (runCalls calls1 editor)) = 2 ∧
    cursorCh (runCalls calls2 (runCalls calls1 editor)) = 0.
Proof.
  intros editor cur s callback runCalls.
  assert (findCurrentIndex (buildHeaders scenario) 2 = Some 2) as Hi
    by (vm_compute; reflexivity).
  assert (buildHeaders scenario !! 2 = Some cur) as Hcur
    by (vm_compute; reflexivity).
  assert (findNextSibling (buildHeaders scenario) 2 = Some s) as Hs
    by (vm_compute; reflexivity).
  split; [exact Hi |]. split; [exact Hcur |]. split; [exact Hs |].
  exact (X11_next_then_previous_returns () (λ (_ : ()) (n : nat), n) (λ _ _, None)
           (λ _ _, None) (λ v _, v) (λ v _, v) editor 2 cur s Hi Hcur Hs).
Defined.

Lemma X12_witness :
  let editor := mkEditor scenario 4 0 () in
  let cur := mkHeaderNode 4 2 (Some (mkHeaderNode 0 1 None)) in
  let s := mkHeaderNode 2 2 (Some (mkHeaderNode 0 1 None)) in
  let callback := editorCallback (λ (_ : ()) (n : nat), n) (λ _ _, None) in
  let runCalls := run () (λ _ _, None) (λ v _, v) (λ v _, v) in
  findCurrentIndex (buildHeaders scenario) 4 = Some 4 ∧
  buildHeaders scenario !! 4 = Some cur ∧
  findPreviousSibling (buildHeaders scenario) 4 = Some s ∧
  ∃ calls1 calls2,
    callback FocusOnPreviousHeader editor = Some calls1 ∧
    callback FocusOnNextHeader (runCalls calls1 editor) = Some calls2 ∧
    value (runCalls calls2 (runCalls calls1 editor)) = scenario ∧
    cursorLine (runCalls calls2 (runCalls calls1 editor)) = 4 ∧
    cursorCh (runCalls calls2 (runCalls calls1 editor)) = 0.
Proof.
  intros editor cur s callback runCalls.
  assert (findCurrentIndex (buildHeaders scenario) 4 = Some 4) as Hi
    by (vm_compute; reflexivity).
  assert (buildHeaders scenario !! 4 = Some cur) as Hcur
    by (vm_compute; reflexivity).
  assert (findPreviousSibling (buildHeaders scenario) 4 = Some s) as Hs
    by (vm_compute; reflexivity).
  split; [exact Hi |]. split; [exact Hcur |]. split; [exact Hs |].
  exact (X12_previous_then_next_returns () (λ (_ : ()) (n : nat), n) (λ _ _, None)
           (λ _ _, None) (λ v _, v) (λ v _, v) editor 4 cur s Hi Hcur Hs).
Defined.

Lemma X13_witness :
  let editor := mkEditor scenario 2 0 () in
  let s := mkHeaderNode 4 2 (Some (mkHeaderNode 0 1 None)) in
  let callback := editorCallback (λ (_ : ()) (n : nat), n) (λ _ _, None) in
  let runCalls := run () (λ _ _, None) (λ v _, v) (λ v _, v) in
  findCurrentIndex (buildHeaders scenario) 2 = Some 2 ∧
  (findNextSibling (buildHeaders scenario) 2 = Some s →
   ∃ calls, callback FocusOnNextHeader editor = Some calls ∧
            2 < cursorLine (runCalls calls editor) ∧
            cursorCh (runCalls calls editor) = 0) ∧
  (findPreviousSibling (buildHeaders scenario) 2 = Some s →
   ∃ calls, callback FocusOnPreviousHeader editor = Some calls ∧
            cursorLine (runCalls calls editor) < 2 ∧
            cursorCh (runCalls calls editor) = 0).
Proof.
  intros editor s callback runCalls.
  assert (findCurrentIndex (buildHeaders scenario) 2 = Some 2) as Hi
    by (vm_compute; reflexivity).
  split; [exact Hi |].
  exact (X13_sibling_moves_cursor_strictly () (λ (_ : ()) (n : nat), n)
           (λ _ _, None) (λ _ _, None) (λ v _, v) (λ v _, v) editor 2 s Hi).
Defined.

Lemma X14_witness :
  let editor := mkEditor scenario 4 0 () in
  let s := mkHeaderNode 2 2 (Some (mkHeaderNode 0 1 None)) in
  let callback := editorCallback (λ (_ : ()) (n : nat), n) (λ _ _, None) in
  let runCalls := run () (λ _ _, None) (λ v _, v) (λ v _, v) in
  findCurrentIndex (buildHeaders scenario) 4 = Some 4 ∧
  findPreviousSibling (buildHeaders scenario) 4 = Some s ∧
  ∃ calls lines,
    callback FocusOnPreviousHeader editor = Some calls ∧
    computeUnfoldLines (buildHeaders scenario) s = Some lines ∧
    currentUnfoldLines (runCalls calls editor) = Some lines.
Proof.
  intros editor s callback runCalls.
  assert (findCurrentIndex (buildHeaders scenario) 4 = Some 4) as Hi
    by (vm_compute; reflexivity).
  assert (findPreviousSibling (buildHeaders scenario) 4 = Some s) as Hs
    by (vm_compute; reflexivity).
  split; [exact Hi |]. split; [exact Hs |].
  exact (X14_focus_current_agrees_after_sibling_move () (λ (_ : ()) (n : nat), n)
           (λ _ _, None) (λ _ _, None) (λ v _, v) (λ v _, v)
           FocusOnPreviousHeader editor 4 s Hi (or_intror (conj eq_refl Hs))).
Defined.

(** ** The effects and the unfold set *)


Section Effects.
Context {View Px : Type}.
Variable zeroPx : Px.
Variable docLineFrom : View → nat → nat.
Variable foldable : View → nat → option Range.
Variable coordsAtPosTop : View → nat → option Px.
Variable dispatch : View → list StateEffect → View.
Variable setScrollTop : View → Px → View.

Local Abbreviation callback := (editorCallback docLineFrom foldable).
Local Abbreviation runCalls := (run zeroPx coordsAtPosTop dispatch setScrollTop).
Local Abbreviation rangeAt :=
  (λ (view : View) (h : HeaderNode), foldable view (docLineFrom view (line h + 1))).


(** X16: on a text none of whose lines is a heading (the empty text too) the
    header list is empty and each of the three commands makes no call. *)
Theorem X16_no_heading_no_call (c : Command) (editor : Editor View) :
  (∀ ln, ln ∈ split (value editor) → ¬ headingPattern ln) →
  buildHeaders (value editor) = [] ∧ callback c editor = Some [].
Proof.
  intros Hnone.
  assert (buildHeaders (value editor) = []) as E.
  { destruct (buildHeaders (value editor)) as [| n hs] eqn:Hhs; [done | exfalso].
    destruct (proj1 (buildHeaders_lines (value editor) (line n) (level n)))
      as (ln & Hln & Hm).
    { exists n. rewrite Hhs. split; [left | done]. }
    apply (Hnone ln); [by eapply list_elem_of_lookup_2 |].
    apply matchHeader_pattern. eauto. }
  split; [done |].
  destruct c; simpl;
    unfold focusOnCurrentHeader, focusOnNextSibling, focusOnPreviousSibling,
      focusOnSibling; by rewrite E.
Qed.

(** X17: the unfold set of a command holds the line of its focus node, holds
    only lines of headings, and holds the line of no other heading of the
    level of the focus node. *)
Theorem X17_unfold_set_within_headings
    (text : jsstring) (cursorLine : nat) (focus : HeaderNode)
    (unfoldLines : gset nat) :
  FocusNode text cursorLine focus →
  computeUnfoldLines (buildHeaders text) focus = Some unfoldLines →
  line focus ∈ unfoldLines ∧
  (∀ x, x ∈ unfoldLines → ∃ h, h ∈ buildHeaders text ∧ line h = x) ∧
  (∀ h, h ∈ buildHeaders text → h ≠ focus → level h = level focus →
        line h ∉ unfoldLines).
Proof.
  intros Hfocus%FocusNode_elem Hrun.
  pose proof (buildHeaders_tree text) as T.
  destruct (computeUnfoldLines_spec _ T focus Hfocus) as (lines & Hrun' & Hlines).
  assert (lines = unfoldLines) as -> by congruence.
  split_and!.
  - apply Hlines. by left.
  - intros x [-> | [(a & Ha & <-) | (d & Hd & _ & <-)]]%Hlines; [eauto | | eauto].
    destruct (ts_ancestor_elem _ T focus a Hfocus Ha) as [Hin _]. eauto.
  - intros h Hh Hne Hlvl.
    rewrite (computeUnfoldLines_headers _ T focus unfoldLines h Hfocus Hrun Hh).
    intros [-> | [Ha | Ha]]; [done | |].
    + destruct (ts_ancestor_elem _ T focus h Hfocus Ha). lia.
    + destruct (ts_ancestor_elem _ T h focus Hh Ha). lia.
Qed.

(** X18: each command answers on every editor (the recursive collection of
    the descendants ends), its calls leave the text as it was, and the cursor
    is moved only by the sibling commands, to column 0 of the line of a
    heading. *)
Theorem X18_commands_answer_and_keep_the_text (c : Command) (editor : Editor View) :
  ∃ calls,
    callback c editor = Some calls ∧
    value (runCalls calls editor) = value editor ∧
    ∀ ln ch, SetCursor ln ch ∈ calls →
             c ≠ FocusOnCurrentHeader ∧ ch = 0 ∧
             ∃ h, h ∈ buildHeaders (value editor) ∧ line h = ln.
Proof.
  destruct (editorCallback_total docLineFrom foldable c editor) as [calls Hcalls].
  exists calls. split_and!; [done | apply run_value |].
  intros ln ch Hin.
  destruct c; simpl in Hcalls;
    unfold focusOnCurrentHeader, focusOnNextSibling, focusOnPreviousSibling,
      focusOnSibling in Hcalls.
  - exfalso. repeat case_match; simplify_eq;
      rewrite ?elem_of_cons, ?elem_of_nil in Hin; naive_solver.
  - destruct (findCurrentIndex _ _) as [i |] eqn:Hi;
      [| simplify_eq; by apply elem_of_nil in Hin].
    destruct (findNextSibling _ i) as [s |] eqn:Hs;
      [| simplify_eq; by apply elem_of_nil in Hin].
    pose proof (FocusNode_elem _ _ _ (focus_next _ _ i s Hi Hs)) as Hel.
    case_match; simplify_eq.
    rewrite !elem_of_cons, elem_of_nil in Hin.
    destruct Hin as [? | [? | [[= -> ->] | []]]]; [done | done |].
    split_and!; [done | done | eauto].
  - destruct (findCurrentIndex _ _) as [i |] eqn:Hi;
      [| simplify_eq; by apply elem_of_nil in Hin].
    destruct (findPreviousSibling _ i) as [s |] eqn:Hs;
      [| simplify_eq; by apply elem_of_nil in Hin].
    pose proof (FocusNode_elem _ _ _ (focus_previous _ _ i s Hi Hs)) as Hel.
    case_match; simplify_eq.
    rewrite !elem_of_cons, elem_of_nil in Hin.
    destruct Hin as [? | [? | [[= -> ->] | []]]]; [done | done |].
    split_and!; [done | done | eauto].
Qed.

End Effects.

Lemma scenario_focus_E :
  FocusNode scenario 2 (mkHeaderNode 4 2 (Some (mkHeaderNode 0 1 None))).
Proof. apply (focus_next scenario 2 2); vm_compute; reflexivity. Defined.


Lemma plainDoc_no_heading :
  ∀ ln, ln ∈ split plainDoc → ¬ headingPattern ln.
Proof.
  intros ln Hln.
  assert (split plainDoc = [ofString "plain"; ofString "#no space"; []]) as E
    by reflexivity.
  rewrite E, !elem_of_cons, elem_of_nil in Hln.
  intros [k Hk]%matchHeader_pattern.
  destruct Hln as [-> | [-> | [-> | []]]]; vm_compute in Hk; discriminate.
Defined.

Lemma X16_witness :
  let editor := mkEditor plainDoc 1 0 () in
  (∀ ln, ln ∈ split plainDoc → ¬ headingPattern ln) ∧
  buildHeaders plainDoc = [] ∧
  editorCallback (λ (_ : ()) (n : nat), n) (λ _ _, None)
    FocusOnNextHeader editor = Some [].
Proof.
  intros editor. split; [exact plainDoc_no_heading |].
  exact (X16_no_heading_no_call (λ (_ : ()) (n : nat), n) (λ _ _, None)
           FocusOnNextHeader editor plainDoc_no_heading).
Defined.

Lemma X17_witness :
  let focus := mkHeaderNode 4 2 (Some (mkHeaderNode 0 1 None)) in
  FocusNode scenario 2 focus ∧
  ∃ unfoldLines,
    computeUnfoldLines (buildHeaders scenario) focus = Some unfoldLines ∧
    line focus ∈ unfoldLines ∧
    (∀ x, x ∈ unfoldLines → ∃ h, h ∈ buildHeaders scenario ∧ line h = x) ∧
    (∀ h, h ∈ buildHeaders scenario → h ≠ focus → level h = level focus →
          line h ∉ unfoldLines).
Proof.
  intros focus.
  split; [exact scenario_focus_E |].
  destruct (computeUnfoldLines (buildHeaders scenario) focus)
    as [unfoldLines |] eqn:Hrun; [| vm_compute in Hrun; discriminate].
  exists unfoldLines. split; [reflexivity |].
  exact (X17_unfold_set_within_headings scenario 2 focus unfoldLines
           scenario_focus_E Hrun).
Defined.
